(** * Multi-model LLM manager: dispatch with automatic fallback

    A shallow embedding of [chatbot/multi_model_manager.py]
    (class [MultiModelLLMManager]) and of the entry point of
    [chatbot/text_corrector.py] that the manager calls.

    - Python values that cross the wire (JSON bodies, adapter results) are
      the inductive [pyval]; a Python [str] is a [string] of bytes, and
      [str.lower] is modelled on the ASCII letters.
    - Exceptions are values of [exn]; code that may raise returns a sum
      [A + exn] ([inl] is a normal return, [inr] a raise).
    - The three backing services are oracles over an abstract [World]
      that is threaded through every call, so that a service may answer
      differently each time it is asked.
    - [self.models] is a list of records, [self.model_stats] a [gmap] from
      the provider key to its two counters. *)

From Stdlib Require Import ZArith QArith String Ascii List Bool Lia.
From stdpp Require Import base option list gmap strings pretty.
Import ListNotations.

Local Set Warnings "-register-all".

Local Open Scope Z_scope.

(** ** Strings

    A [str] is held as the bytes of its UTF-8 encoding. The case
    mappings and the white space test below are those of Python on the
    ASCII characters and leave every other byte alone. On a text of ASCII
    characters they are [str.lower], [str.upper], [str.strip] and
    [str.split]; on other characters Python does more (it lowercases
    U+00C9, uppercases U+00DF to two letters, strips U+00A0), which is not
    modelled. The texts the manager searches are lowercased error
    messages, searched for ASCII markers; what is proved of a text that a
    user or a model supplies and that depends on its case or its white
    space is stated for ASCII texts ([is_ascii] below). *)

Module Str.

(** The one-character string [chr 10]. *)
Definition nl : string := String (Ascii.ascii_of_nat 10) EmptyString.

Definition lower_char (c : ascii) : ascii :=
  let n := Ascii.nat_of_ascii c in
  if ((65 <=? n) && (n <=? 90))%nat then Ascii.ascii_of_nat (n + 32) else c.

(** [s.lower()], for the ASCII letters *)
Fixpoint lower (s : string) : string :=
  match s with
  | EmptyString => EmptyString
  | String c s' => String (lower_char c) (lower s')
  end.

(** [kw in s] for two strings *)
Fixpoint contains (kw s : string) : bool :=
  String.prefix kw s ||
  match s with
  | EmptyString => false
  | String _ s' => contains kw s'
  end.

(** [any(kw in s for kw in kws)] *)
Definition any_in (kws : list string) (s : string) : bool :=
  existsb (fun kw => contains kw s) kws.

(** [sep.join(parts)] *)
Definition join (sep : string) (parts : list string) : string :=
  String.concat sep parts.

End Str.

(** ** Python values and exceptions *)

(** JSON bodies and adapter results. A [dict] keeps its items in order; the
    keys of a JSON object are strings. Numbers that are not integers are
    not represented. *)
Inductive pyval : Type :=
| PNone
| PBool (b : bool)
| PInt (z : Z)
| PStr (s : string)
| PList (l : list pyval)
| PDict (d : list (string * pyval)).

(** [bool(v)] *)
Definition truthy (v : pyval) : bool :=
  match v with
  | PNone => false
  | PBool b => b
  | PInt z => negb (z =? 0)
  | PStr s => negb (String.eqb s "")
  | PList l => match l with [] => false | _ => true end
  | PDict d => match d with [] => false | _ => true end
  end.

(** [type(v).__name__] *)
Definition type_name (v : pyval) : string :=
  match v with
  | PNone => "NoneType"
  | PBool _ => "bool"
  | PInt _ => "int"
  | PStr _ => "str"
  | PList _ => "list"
  | PDict _ => "dict"
  end.

(** [d.get(k, dflt)] *)
Fixpoint dict_get (k : string) (d : list (string * pyval)) (dflt : pyval) : pyval :=
  match d with
  | [] => dflt
  | (k', v) :: d' => if String.eqb k k' then v else dict_get k d' dflt
  end.

(** The exceptions the manager tells apart: [requests.exceptions.HTTPError]
    (the handler reads [e.response.status_code]) and every other subclass
    of [Exception], kept as its class name and its [str(e)]. *)
Inductive exn : Type :=
| HTTPError (status : Z) (text : string)
| PyError (cls : string) (text : string).

(** [str(e)] *)
Definition str_exn (e : exn) : string :=
  match e with
  | HTTPError _ t => t
  | PyError _ t => t
  end.

(** The [AttributeError] of a method call on a value that lacks it. *)
Definition attribute_error (v : pyval) (attr : string) : exn :=
  PyError "AttributeError"
    ("'" +:+ type_name v +:+ "' object has no attribute '" +:+ attr +:+ "'").

Definition key_error (k : string) : exn :=
  PyError "KeyError" ("'" +:+ k +:+ "'").

(** ** Error classification (the [except] clause of [generate]) *)

Inductive verdict : Type := Retryable | PermanentlyUnavailable | Fatal.

Definition retryable_keywords : list string :=
  ["rate limit"; "429"; "503"; "timeout"; "connection";
   "service unavailable"; "too many requests"].

(** [is_retryable], on [error_str = str(e).lower()] *)
Definition is_retryable (error_str : string) : bool :=
  Str.any_in retryable_keywords error_str.

(** [is_model_unavailable], on [error_str = str(e).lower()] *)
Definition is_model_unavailable (error_str : string) : bool :=
  Str.contains "410" error_str || Str.contains "gone" error_str ||
  Str.contains "404" error_str ||
  Str.contains "all hugging face models failed" error_str.

(** The [if is_model_unavailable ... elif is_retryable ... else] chain. *)
Definition classify (e : exn) : verdict :=
  let error_str := Str.lower (str_exn e) in
  if is_model_unavailable error_str then PermanentlyUnavailable
  else if is_retryable error_str then Retryable
  else Fatal.

(** ** Messages and prompt flattening *)

(** A message dict is read through [msg.get('role', 'user')] and
    [msg.get('content', '')] only; [None] is an absent key. *)
Record message : Type := Message {
  role : option string;
  content : option string
}.

(** The body of the loop of [_messages_to_prompt]. *)
Definition append_part (prompt_parts : list string) (msg : message) : list string :=
  let r := default "user" (role msg) in
  let c := default "" (content msg) in
  if String.eqb r "system" then prompt_parts ++ ["System: " +:+ c +:+ Str.nl]
  else if String.eqb r "user" then prompt_parts ++ ["User: " +:+ c +:+ Str.nl]
  else if String.eqb r "assistant" then prompt_parts ++ ["Assistant: " +:+ c +:+ Str.nl]
  else prompt_parts.

(** [_messages_to_prompt] *)
Definition messages_to_prompt (messages : list message) : string :=
  Str.join Str.nl (fold_left append_part messages []).

(** ** The wire: what an adapter sends and what comes back *)

(** The [payload] dict of the Hugging Face adapter. A finite Python float
    is a rational number and the manager only passes it on. *)
Record payload : Type := Payload {
  inputs : string;
  temperature : Q;
  max_new_tokens : Z;
  return_full_text : bool
}.

(** The arguments of [requests.post(api_url, headers=, json=, timeout=)]. *)
Record http_request : Type := HttpRequest {
  api_url : string;
  authorization : string;
  json : payload;
  post_timeout : Z
}.

(** What the adapter reads of a [requests.Response]: the status, the
    reason phrase, and what [response.json()] gives (or raises). *)
Record response : Type := Response {
  status_code : Z;
  reason : string;
  body : pyval + exn
}.

(** [response.raise_for_status()]: [None] when it returns, [Some e] when it
    raises, with the message the requests library builds. *)
Definition raise_for_status (url : string) (r : response) : option exn :=
  let st := status_code r in
  if (400 <=? st) && (st <? 500) then
    Some (HTTPError st (pretty st +:+ " Client Error: " +:+ reason r +:+ " for url: " +:+ url))
  else if (500 <=? st) && (st <? 600) then
    Some (HTTPError st (pretty st +:+ " Server Error: " +:+ reason r +:+ " for url: " +:+ url))
  else None.

(** What one adapter invocation did on the wire, in order. *)
Inductive wire_event : Type :=
| Posted (rq : http_request)
| Slept (seconds : Z).

(** ** The registry *)

(** One dict of [self.models]. The Groq entry has no ['api_key'] and no
    ['fallback_models'] (its ['client'] object lives in the world); every
    entry is built with ['enabled': True]. *)
Record model_info : Type := ModelInfo {
  name : string;
  provider : string;
  api_key : option string;
  model : string;
  fallback_models : option (list string);
  timeout : Z;
  enabled : bool
}.

Definition disable (m : model_info) : model_info :=
  {| name := name m; provider := provider m; api_key := api_key m;
     model := model m; fallback_models := fallback_models m;
     timeout := timeout m; enabled := false |}.

(** One entry of [self.model_stats]: [{'success': _, 'failures': _}]. *)
Record counts : Type := Counts { success : nat; failures : nat }.

Record manager : Type := Manager {
  models : list model_info;
  model_stats : gmap string counts
}.

Definition hf_models : list string :=
  ["mistralai/Mistral-7B-Instruct-v0.3";
   "mistralai/Mixtral-8x7B-Instruct-v0.1";
   "meta-llama/Llama-3-8b-instruct";
   "google/flan-t5-large"].

(** What [_initialize_models] reads of the process: for each provider,
    whether its package imported, the key found in the environment, and
    whether building the client raised. *)
Record environment : Type := Environment {
  GROQ_AVAILABLE : bool;
  GROQ_API_KEY : option string;
  groq_client_ok : bool;
  HF_AVAILABLE : bool;
  HUGGINGFACE_API_KEY : option string;
  GEMINI_AVAILABLE : bool;
  GOOGLE_API_KEY : option string;
  GEMINI_API_KEY : option string;
  gemini_configure_ok : bool
}.

(** Truthiness of [os.getenv(k)]: set and not empty. *)
Definition key_set (k : option string) : option string :=
  match k with
  | Some s => if String.eqb s "" then None else Some s
  | None => None
  end.

Definition groq_entry : model_info :=
  {| name := "Groq Llama 3.3 70B"; provider := "groq"; api_key := None;
     model := "llama-3.3-70b-versatile"; fallback_models := None;
     timeout := 30; enabled := true |}.

Definition huggingface_entry (hf_key : string) : model_info :=
  {| name := "Hugging Face Mistral 7B"; provider := "huggingface";
     api_key := Some hf_key; model := hd "" hf_models;
     fallback_models := Some (tl hf_models); timeout := 45; enabled := true |}.

Definition gemini_entry (gemini_key : string) : model_info :=
  {| name := "Google Gemini Pro"; provider := "gemini";
     api_key := Some gemini_key; model := "gemini-pro";
     fallback_models := None; timeout := 45; enabled := true |}.

Definition zero : counts := {| success := 0; failures := 0 |}.

(** [_initialize_models], starting from the empty [self.models] and
    [self.model_stats] of [__init__]. *)
Definition initialize_models (env : environment) : manager :=
  let m0 := {| models := []; model_stats := ∅ |} in
  let m1 :=
    match key_set (GROQ_API_KEY env) with
    | Some _ =>
        if GROQ_AVAILABLE env && groq_client_ok env then
          {| models := models m0 ++ [groq_entry];
             model_stats := <["groq" := zero]> (model_stats m0) |}
        else m0
    | None => m0
    end in
  let m2 :=
    match key_set (HUGGINGFACE_API_KEY env) with
    | Some hf_key =>
        if HF_AVAILABLE env then
          {| models := models m1 ++ [huggingface_entry hf_key];
             model_stats := <["huggingface" := zero]> (model_stats m1) |}
        else m1
    | None => m1
    end in
  let gemini_key :=
    match key_set (GOOGLE_API_KEY env) with
    | Some k => Some k
    | None => key_set (GEMINI_API_KEY env)
    end in
  match gemini_key with
  | Some k =>
      if GEMINI_AVAILABLE env && gemini_configure_ok env then
        {| models := models m2 ++ [gemini_entry k];
           model_stats := <["gemini" := zero]> (model_stats m2) |}
      else m2
  | None => m2
  end.

(** The cross mark U+274C that opens the message below, as the three
    bytes of its UTF-8 encoding. *)
Definition cross_mark : string :=
  String (Ascii.ascii_of_nat 226)
    (String (Ascii.ascii_of_nat 157) (String (Ascii.ascii_of_nat 140) EmptyString)).

(** The message of the [ValueError] of [__init__]. *)
Definition no_models_message : string :=
  Str.nl +:+ cross_mark +:+ " No AI models available!" +:+ Str.nl +:+
  "   Please configure at least one API key:" +:+ Str.nl +:+
  "   - GROQ_API_KEY (recommended)" +:+ Str.nl +:+
  "   - HUGGINGFACE_API_KEY" +:+ Str.nl +:+
  "   - GOOGLE_API_KEY or GEMINI_API_KEY" +:+ Str.nl.

(** [__init__]: the registry, or the [ValueError] of an empty one. *)
Definition init (env : environment) : manager + exn :=
  let mgr := initialize_models env in
  match models mgr with
  | [] => inr (PyError "ValueError" no_models_message)
  | _ => inl mgr
  end.

(** ** A chat request: the arguments of [generate] *)

Record request : Type := Request {
  messages : list message;
  req_temperature : Q;
  max_tokens : Z;
  fix_typos : bool
}.

(** ** The normalizer, [TextCorrector.fix_llm_response]

    On a [str] the method is a chain of [str.replace] and [re.sub] calls
    that always returns a [str]; that chain is the parameter [fix_text].
    What the manager depends on is the entry of the method: a falsy
    argument is returned as it is, and the first statement after that is
    [corrected.replace(...)], which exists on a [str] only. *)
Definition fix_llm_response (fix_text : string -> string) (response : pyval) : pyval + exn :=
  if negb (truthy response) then inl response
  else match response with
       | PStr s => inl (PStr (fix_text s))
       | v => inr (attribute_error v "replace")
       end.

(** The guard of the sibling [TextCorrector.fix_common_typos]:
    [if not text or not isinstance(text, str): return text]. It returns
    [None] when the method goes on to edit the string. *)
Definition fix_common_typos_guard (text : pyval) : option pyval :=
  if negb (truthy text) then Some text
  else match text with
       | PStr _ => None
       | v => Some v
       end.

(** ** Adapters and dispatcher *)

(** One step of the loop over [models_to_try]. *)
Inductive iter_result : Type :=
| IterReturn (v : pyval)
| IterContinue (last_error : string)
| IterRaise (e : exn).

(** How the [try] block of that loop ends. *)
Inductive try_result : Type :=
| TryReturn (v : pyval)
| TryGone
| TryRaise (e : exn).

Definition try_of (r : pyval + exn) : try_result :=
  match r with
  | inl v => TryReturn v
  | inr e => TryRaise e
  end.

(** The two [except] clauses of the Hugging Face loop;
    [last] is [models_to_try[-1]]. *)
Definition hf_except (model_name last : string) (e : exn) : iter_result :=
  match e with
  | HTTPError st _ =>
      if (st =? 410) || (st =? 404) then IterContinue (str_exn e)
      else if String.eqb model_name last then IterRaise e
      else IterContinue (str_exn e)
  | PyError _ _ =>
      if String.eqb model_name last then IterRaise e
      else IterContinue (str_exn e)
  end.

(** [response.raise_for_status(); result = response.json()] *)
Definition read_json (url : string) (r : response) : pyval + exn :=
  match raise_for_status url r with
  | Some e => inr e
  | None => body r
  end.

(** The test that guards the delayed retry:
    [isinstance(result, dict) and result.get('error')] and then
    ['loading' in error_msg.lower()]. *)
Definition is_loading (result : pyval) : bool + exn :=
  match result with
  | PDict d =>
      if truthy (dict_get "error" d PNone) then
        match dict_get "error" d (PStr "") with
        | PStr error_msg => inl (Str.contains "loading" (Str.lower error_msg))
        | v => inr (attribute_error v "lower")
        end
      else inl false
  | _ => inl false
  end.

(** The last [if/elif/else] of the [try] block. *)
Definition generated_text (result : pyval) : pyval + exn :=
  match result with
  | PList (x :: _) =>
      match x with
      | PDict d => inl (dict_get "generated_text" d (PStr ""))
      | v => inr (attribute_error v "get")
      end
  | PDict d => inl (dict_get "generated_text" d (PStr ""))
  | _ => inr (PyError "ValueError" "Unexpected response format from Hugging Face")
  end.

Definition gone_message (model_name : string) : string :=
  "Model " +:+ model_name +:+ " is no longer available (410 Gone)".

Definition all_failed_message (last_error : option string) : string :=
  "All Hugging Face models failed. Last error: " +:+ default "None" last_error.

(** What one pass of [generate] over one model did. [inv_index] is the
    position in [self.models]; [inv_result] is what the adapter returned
    or raised; [inv_handled] is the exception that entered the [except]
    clause of [generate], if one did. *)
Record invocation : Type := Invocation {
  inv_index : nat;
  inv_provider : string;
  inv_wire : list wire_event;
  inv_result : pyval + exn;
  inv_handled : option exn
}.

(** The local state of one [generate] call, with the world and the log of
    adapter invocations. *)
Record frame {World : Type} : Type := Frame {
  stats : gmap string counts;
  world : World;
  attempted_models : list string;
  last_error : option exn;
  trace : list invocation
}.
Arguments frame : clear implicits.

(** How [generate] ends: a return, the final [raise Exception(error_msg)]
    (kept as the values its f-string interpolates), or an exception that
    leaves the [except] clause itself. *)
Inductive outcome : Type :=
| Returned (v : pyval)
| AllFailed (attempted : list string) (last : option exn) (snapshot : gmap string counts)
| Uncaught (e : exn).

(** The first three lines of [error_msg]; the fourth prints the dict of
    counters. *)
Definition error_msg_head (attempted : list string) (last : option exn) : string :=
  "All AI models failed after trying " +:+ pretty (length attempted) +:+ " model(s)." +:+ Str.nl +:+
  "Attempted: " +:+ Str.join ", " attempted +:+ Str.nl +:+
  "Last error: " +:+ default "None" (str_exn <$> last).

Definition succeeded_once (c : counts) : counts :=
  {| success := S (success c); failures := failures c |}.

Definition failed_once (c : counts) : counts :=
  {| success := success c; failures := S (failures c) |}.

(** [stats[provider]['success'] += 1]; [None] is the [KeyError]. *)
Definition bump_success (p : string) (s : gmap string counts) : option (gmap string counts) :=
  match s !! p with
  | Some c => Some (<[p := succeeded_once c]> s)
  | None => None
  end.

(** [stats[provider]['failures'] += 1]; [None] is the [KeyError]. *)
Definition bump_failures (p : string) (s : gmap string counts) : option (gmap string counts) :=
  match s !! p with
  | Some c => Some (<[p := failed_once c]> s)
  | None => None
  end.

(** How one pass of the loop of [generate] ends: a [return], the next
    iteration (with the entry as the pass leaves it), or an exception that
    escapes. *)
Inductive step {World : Type} : Type :=
| StepReturn (v : pyval) (f : frame World)
| StepNext (m' : model_info) (f : frame World)
| StepUncaught (e : exn) (f : frame World).
Arguments step : clear implicits.

(** How the whole loop ends; [LoopEnd] falls through to the final
    [raise]. *)
Inductive loop_exit : Type :=
| LoopReturn (v : pyval)
| LoopUncaught (e : exn)
| LoopEnd.

Section Manager.

Context {World : Type}.

(** [client.chat.completions.create(model=, messages=, temperature=,
    max_tokens=, timeout=)] followed by [.choices[0].message.content]. *)
Variable groq_chat :
  string -> list message -> Q -> Z -> Z -> World -> (pyval + exn) * World.

(** [requests.post] *)
Variable requests_post : http_request -> World -> (response + exn) * World.

(** [genai.configure(api_key=)], [genai.GenerativeModel(model)],
    [generate_content(prompt, generation_config=)] and [.text]. *)
Variable gemini_generate :
  string -> string -> string -> Q -> Z -> World -> (pyval + exn) * World.

(** The string edits of [fix_llm_response]. *)
Variable fix_text : string -> string.

(** [_generate_with_groq] *)
Definition generate_with_groq (m : model_info) (rq : request) (w : World)
  : (pyval + exn) * World * list wire_event :=
  let '(r, w') := groq_chat (model m) (messages rq) (req_temperature rq)
                    (max_tokens rq) (timeout m) w in
  (r, w', []).

(** The [try] block of the loop of [_generate_with_huggingface]. *)
Definition hf_try (rq : http_request) (w : World)
  : try_result * World * list wire_event :=
  match requests_post rq w with
  | (inr e, w1) => (TryRaise e, w1, [Posted rq])
  | (inl resp, w1) =>
      if (status_code resp =? 410) || (status_code resp =? 404)
      then (TryGone, w1, [Posted rq])
      else
        match read_json (api_url rq) resp with
        | inr e => (TryRaise e, w1, [Posted rq])
        | inl result =>
            match is_loading result with
            | inr e => (TryRaise e, w1, [Posted rq])
            | inl false => (try_of (generated_text result), w1, [Posted rq])
            | inl true =>
                match requests_post rq w1 with
                | (inr e, w2) => (TryRaise e, w2, [Posted rq; Slept 5; Posted rq])
                | (inl resp2, w2) =>
                    match read_json (api_url rq) resp2 with
                    | inr e => (TryRaise e, w2, [Posted rq; Slept 5; Posted rq])
                    | inl result2 =>
                        (try_of (generated_text result2), w2,
                         [Posted rq; Slept 5; Posted rq])
                    end
                end
            end
        end
  end.

Definition hf_request (key prompt : string) (rq : request) (tmo : Z)
    (model_name : string) : http_request :=
  {| api_url := "https://api-inference.huggingface.co/models/" +:+ model_name;
     authorization := "Bearer " +:+ key;
     json := {| inputs := prompt; temperature := req_temperature rq;
                max_new_tokens := max_tokens rq; return_full_text := false |};
     post_timeout := tmo |}.

(** One iteration of that loop, [try] and [except] together. *)
Definition hf_iter (mk : string -> http_request) (last model_name : string) (w : World)
  : iter_result * World * list wire_event :=
  let '(t, w', ev) := hf_try (mk model_name) w in
  (match t with
   | TryReturn v => IterReturn v
   | TryGone => IterContinue (gone_message model_name)
   | TryRaise e => hf_except model_name last e
   end, w', ev).

(** [for model_name in models_to_try: ...] and the [raise] after it. *)
Fixpoint hf_loop (mk : string -> http_request) (last : string) (todo : list string)
    (last_error : option string) (w : World)
  : (pyval + exn) * World * list wire_event :=
  match todo with
  | [] => (inr (PyError "Exception" (all_failed_message last_error)), w, [])
  | model_name :: rest =>
      match hf_iter mk last model_name w with
      | (IterReturn v, w', ev) => (inl v, w', ev)
      | (IterRaise e, w', ev) => (inr e, w', ev)
      | (IterContinue le, w', ev) =>
          let '(r, w'', ev') := hf_loop mk last rest (Some le) w' in
          (r, w'', ev ++ ev')
      end
  end.

Definition models_to_try (m : model_info) : list string :=
  model m :: default [] (fallback_models m).

(** [_generate_with_huggingface] *)
Definition generate_with_huggingface (m : model_info) (rq : request) (w : World)
  : (pyval + exn) * World * list wire_event :=
  match api_key m with
  | None => (inr (key_error "api_key"), w, [])
  | Some key =>
      let prompt := messages_to_prompt (messages rq) in
      let todo := models_to_try m in
      hf_loop (hf_request key prompt rq (timeout m)) (List.last todo "") todo None w
  end.

(** [_generate_with_gemini] *)
Definition generate_with_gemini (m : model_info) (rq : request) (w : World)
  : (pyval + exn) * World * list wire_event :=
  match api_key m with
  | None => (inr (key_error "api_key"), w, [])
  | Some key =>
      let prompt := messages_to_prompt (messages rq) in
      let '(r, w') := gemini_generate key (model m) prompt (req_temperature rq)
                        (max_tokens rq) w in
      (r, w', [])
  end.

(** The [if provider == ... elif ... else: continue] of [generate];
    [None] is the [else] branch. *)
Definition call_adapter (rq : request) (m : model_info) (w : World)
  : option ((pyval + exn) * World * list wire_event) :=
  if String.eqb (provider m) "groq" then Some (generate_with_groq m rq w)
  else if String.eqb (provider m) "huggingface" then Some (generate_with_huggingface m rq w)
  else if String.eqb (provider m) "gemini" then Some (generate_with_gemini m rq w)
  else None.

(** The body of the [for model_info in self.models] loop of [generate],
    for the model at position [idx]. *)
Definition attempt (rq : request) (idx : nat) (m : model_info) (f : frame World)
  : step World :=
  if negb (enabled m) then StepNext m f
  else
    let attempted := attempted_models f ++ [name m] in
    match call_adapter rq m (world f) with
    | None =>
        StepNext m {| stats := stats f; world := world f; attempted_models := attempted;
                      last_error := last_error f; trace := trace f |}
    | Some (r, w1, wire) =>
        let log h := trace f ++ [{| inv_index := idx; inv_provider := provider m;
                                    inv_wire := wire; inv_result := r;
                                    inv_handled := h |}] in
        (* the rest of the [try] block *)
        let '(stats1, tried) :=
          match r with
          | inr e => (stats f, inr e)
          | inl raw_response =>
              match bump_success (provider m) (stats f) with
              | None => (stats f, inr (key_error (provider m)))
              | Some s1 =>
                  (s1, if fix_typos rq && truthy raw_response
                       then fix_llm_response fix_text raw_response
                       else inl raw_response)
              end
          end in
        match tried with
        | inl v =>
            StepReturn v {| stats := stats1; world := w1; attempted_models := attempted;
                            last_error := last_error f; trace := log None |}
        | inr e =>
            (* [except Exception as e] *)
            match bump_failures (provider m) stats1 with
            | None =>
                StepUncaught (key_error (provider m))
                  {| stats := stats1; world := w1; attempted_models := attempted;
                     last_error := last_error f; trace := log (Some e) |}
            | Some s2 =>
                StepNext
                  (match classify e with
                   | PermanentlyUnavailable => disable m
                   | _ => m
                   end)
                  {| stats := s2; world := w1; attempted_models := attempted;
                     last_error := Some e; trace := log (Some e) |}
            end
        end
    end.

(** The loop itself; it gives back the list with the flags it set. *)
Fixpoint generate_loop (rq : request) (idx : nat) (ms : list model_info) (f : frame World)
  : loop_exit * list model_info * frame World :=
  match ms with
  | [] => (LoopEnd, [], f)
  | m :: rest =>
      match attempt rq idx m f with
      | StepReturn v f' => (LoopReturn v, m :: rest, f')
      | StepUncaught e f' => (LoopUncaught e, m :: rest, f')
      | StepNext m' f' =>
          let '(x, rest', f'') := generate_loop rq (S idx) rest f' in
          (x, m' :: rest', f'')
      end
  end.

(** [generate]: its outcome, the manager and the world after the call,
    and the adapter invocations the call made. *)
Definition generate (rq : request) (mgr : manager) (w : World)
  : outcome * manager * World * list invocation :=
  let f0 := {| stats := model_stats mgr; world := w; attempted_models := [];
               last_error := None; trace := [] |} in
  let '(x, ms', f) := generate_loop rq 0 (models mgr) f0 in
  (match x with
   | LoopReturn v => Returned v
   | LoopUncaught e => Uncaught e
   | LoopEnd => AllFailed (attempted_models f) (last_error f) (stats f)
   end,
   {| models := ms'; model_stats := stats f |}, world f, trace f).

(** A sequence of [generate] calls on one manager instance. *)
Fixpoint generate_all (rqs : list request) (mgr : manager) (w : World)
  : list outcome * manager * World * list invocation :=
  match rqs with
  | [] => ([], mgr, w, [])
  | rq :: rqs' =>
      let '(o, mgr1, w1, tr1) := generate rq mgr w in
      let '(os, mgr2, w2, tr2) := generate_all rqs' mgr1 w1 in
      (o :: os, mgr2, w2, tr1 ++ tr2)
  end.

(** *** Scenarios

    [all_fail rq ms w] runs the adapters of the enabled models of [ms]
    in list order from the world [w]; it is [Some (w', es)] when every
    one of them raises, with the world after the last one and the
    exceptions in order, and [None] as soon as one returns or has no
    adapter. *)
Fixpoint all_fail (rq : request) (ms : list model_info) (w : World)
  : option (World * list exn) :=
  match ms with
  | [] => Some (w, [])
  | m :: rest =>
      if enabled m then
        match call_adapter rq m w with
        | Some (inr e, w1, _) =>
            match all_fail rq rest w1 with
            | Some (w', es) => Some (w', e :: es)
            | None => None
            end
        | _ => None
        end
      else all_fail rq rest w
  end.

End Manager.

(** Every model of the registry has its entry in [model_stats]. *)
Definition stats_cover (ms : list model_info) (s : gmap string counts) : Prop :=
  ∀ m, m ∈ ms → is_Some (s !! provider m).

(** The registries [_initialize_models] can build: the stats cover the
    models and no provider key occurs twice. *)
Definition well_formed (mgr : manager) : Prop :=
  stats_cover (models mgr) (model_stats mgr) ∧ NoDup (provider <$> models mgr).

(** What a call may do to a registry entry: nothing, or switch it off. *)
Definition flag_step (m m' : model_info) : Prop := m' = m ∨ m' = disable m.

(** The wire log of one model id: one POST, or a POST, the fixed delay and
    the same POST again. *)
Definition one_model_wire (rq : http_request) (g : list wire_event) : Prop :=
  g = [Posted rq] ∨ g = [Posted rq; Slept 5; Posted rq].

(** How often the adapter of provider [p] was invoked in a trace. *)
Definition invocations (p : string) (tr : list invocation) : nat :=
  length (List.filter (λ i, String.eqb (inv_provider i) p) tr).

(** How often, in a trace, provider [p] returned a value and the [except]
    clause of [generate] ran all the same. *)
Definition returned_then_failed (p : string) (tr : list invocation) : nat :=
  length (List.filter (λ i, String.eqb (inv_provider i) p &&
                            match inv_result i, inv_handled i with
                            | inl _, Some _ => true
                            | _, _ => false
                            end) tr).

(** What [generate] returns for the text [s] of a provider. *)
Definition normalized (fix_text : string → string) (rq : request) (s : string) : pyval :=
  if fix_typos rq && truthy (PStr s) then PStr (fix_text s) else PStr s.

(** [success + failures] of provider [p], as [get_model_stats] adds them. *)
Definition total (s : gmap string counts) (p : string) : nat :=
  match s !! p with
  | Some c => success c + failures c
  | None => 0
  end.

(** ** The prompt, as the specification words it *)

Definition known_role (msg : message) : bool :=
  let r := default "user" (role msg) in
  String.eqb r "system" || String.eqb r "user" || String.eqb r "assistant".

Definition role_label (msg : message) : string :=
  let r := default "user" (role msg) in
  if String.eqb r "system" then "System"
  else if String.eqb r "user" then "User"
  else "Assistant".

Definition labelled (msg : message) : string :=
  role_label msg +:+ ": " +:+ default "" (content msg) +:+ Str.nl.

Definition prompt_spec (msgs : list message) : string :=
  Str.join Str.nl (labelled <$> List.filter known_role msgs).

(** ** A scripted world

    The world is the list of replies the services will give, consumed in
    order; a service asked when the next reply is not one of its own finds
    the network down. *)
Module Script.

Inductive reply : Type :=
| Groq (r : pyval + exn)
| Http (r : response + exn)
| Gemini (r : pyval + exn).

Definition offline : exn := PyError "ConnectionError" "network is unreachable".

Definition groq_chat (_ : string) (_ : list message) (_ : Q) (_ _ : Z)
    (w : list reply) : (pyval + exn) * list reply :=
  match w with
  | Groq r :: w' => (r, w')
  | _ => (inr offline, w)
  end.

Definition requests_post (_ : http_request) (w : list reply)
  : (response + exn) * list reply :=
  match w with
  | Http r :: w' => (r, w')
  | _ => (inr offline, w)
  end.

Definition gemini_generate (_ _ _ : string) (_ : Q) (_ : Z)
    (w : list reply) : (pyval + exn) * list reply :=
  match w with
  | Gemini r :: w' => (r, w')
  | _ => (inr offline, w)
  end.

(** A normalizer that finds nothing to edit. *)
Definition fix_text (s : string) : string := s.

Definition generate := generate groq_chat requests_post gemini_generate fix_text.
Definition generate_all := generate_all groq_chat requests_post gemini_generate fix_text.
Definition generate_with_huggingface := generate_with_huggingface requests_post.
Definition call_adapter := call_adapter groq_chat requests_post gemini_generate.
Definition all_fail := all_fail groq_chat requests_post gemini_generate.

Definition ok (st : Z) (v : pyval) : reply :=
  Http (inl {| status_code := st; reason := "OK"; body := inl v |}).

Definition status (st : Z) (why : string) : reply :=
  Http (inl {| status_code := st; reason := why;
               body := inl (PDict [("error", PStr why)]) |}).

Definition say (content : string) : request :=
  {| messages := [{| role := Some "user"; content := Some content |}];
     req_temperature := 7 # 10; max_tokens := 1024; fix_typos := true |}.

(** All three providers configured. *)
Definition env3 : environment :=
  {| GROQ_AVAILABLE := true; GROQ_API_KEY := Some "gsk"; groq_client_ok := true;
     HF_AVAILABLE := true; HUGGINGFACE_API_KEY := Some "hf";
     GEMINI_AVAILABLE := true; GOOGLE_API_KEY := Some "g"; GEMINI_API_KEY := None;
     gemini_configure_ok := true |}.

(** Hugging Face and Gemini only. *)
Definition env2 : environment :=
  {| GROQ_AVAILABLE := true; GROQ_API_KEY := None; groq_client_ok := true;
     HF_AVAILABLE := true; HUGGINGFACE_API_KEY := Some "hf";
     GEMINI_AVAILABLE := true; GOOGLE_API_KEY := None; GEMINI_API_KEY := Some "g";
     gemini_configure_ok := true |}.

(** Hugging Face only. *)
Definition env1 : environment :=
  {| GROQ_AVAILABLE := false; GROQ_API_KEY := None; groq_client_ok := true;
     HF_AVAILABLE := true; HUGGINGFACE_API_KEY := Some "hf";
     GEMINI_AVAILABLE := false; GOOGLE_API_KEY := None; GEMINI_API_KEY := None;
     gemini_configure_ok := true |}.

End Script.

(** ** Reading the counters: [get_model_stats] *)

(** One entry of the dict [get_model_stats] returns. *)
Record stats_report : Type := StatsReport {
  report_success : nat;
  report_failures : nat;
  success_rate : string
}.

(** [get_model_stats]. The parameter [one_decimal s t] stands for the
    float arithmetic and formatting of [f"{(s / t) * 100:.1f}"]; the
    percent sign that follows it and the ['N/A'] of the other branch are
    as in the source. *)
Definition get_model_stats (one_decimal : nat → nat → string)
    (model_stats : gmap string counts) : gmap string stats_report :=
  (λ c,
     let total := (success c + failures c)%nat in
     if (0 <? total)%nat then
       {| report_success := success c; report_failures := failures c;
          success_rate := one_decimal (success c) total +:+ "%" |}
     else
       {| report_success := 0; report_failures := 0; success_rate := "N/A" |})
  <$> model_stats.

(** ** Counting on the wire *)

Definition is_post (e : wire_event) : bool :=
  match e with Posted _ => true | Slept _ => false end.

(** The number of POSTs of a wire log. *)
Definition posts (ev : list wire_event) : nat := length (List.filter is_post ev).

(** The seconds slept in a wire log. *)
Definition slept (ev : list wire_event) : Z :=
  foldr (λ e acc, match e with Slept n => n + acc | Posted _ => acc end) 0 ev.

(** ** Which providers [_initialize_models] registers *)

Definition groq_configured (env : environment) : bool :=
  GROQ_AVAILABLE env && bool_decide (is_Some (key_set (GROQ_API_KEY env))) &&
  groq_client_ok env.

Definition huggingface_configured (env : environment) : bool :=
  HF_AVAILABLE env && bool_decide (is_Some (key_set (HUGGINGFACE_API_KEY env))).

Definition gemini_configured (env : environment) : bool :=
  GEMINI_AVAILABLE env &&
  (bool_decide (is_Some (key_set (GOOGLE_API_KEY env))) ||
   bool_decide (is_Some (key_set (GEMINI_API_KEY env)))) &&
  gemini_configure_ok env.

(** ** A steady world: every POST gets the same answer *)
Module Steady.

Definition groq_chat (_ : string) (_ : list message) (_ : Q) (_ _ : Z)
    (w : unit) : (pyval + exn) * unit :=
  (inr (PyError "APIConnectionError" "Connection error."), w).

Definition requests_post (answer : response) (_ : http_request) (w : unit)
  : (response + exn) * unit :=
  (inl answer, w).

Definition gemini_generate (_ _ _ : string) (_ : Q) (_ : Z)
    (w : unit) : (pyval + exn) * unit :=
  (inr (PyError "ServiceUnavailable" "503 Service Unavailable"), w).

Definition gone : response :=
  {| status_code := 410; reason := "Gone"; body := inl (PDict [("error", PStr "Gone")]) |}.

End Steady.

(** ** More of Python's [str]

    As before the methods act on the ASCII characters: [isspace] holds of
    the bytes 9 to 13 and 28 to 32, [upper] maps the letters a to z. *)
Module Text.

Definition is_space (c : ascii) : bool :=
  let n := Ascii.nat_of_ascii c in
  (((9 <=? n) && (n <=? 13)) || ((28 <=? n) && (n <=? 32)))%nat.

Definition upper_char (c : ascii) : ascii :=
  let n := Ascii.nat_of_ascii c in
  if ((97 <=? n) && (n <=? 122))%nat then Ascii.ascii_of_nat (n - 32) else c.

(** [s.upper()], for the ASCII letters *)
Fixpoint upper (s : string) : string :=
  match s with
  | EmptyString => EmptyString
  | String c s' => String (upper_char c) (upper s')
  end.

(** [s.lstrip(chars)], the characters to strip given as a test *)
Fixpoint lstrip (strip_it : ascii → bool) (s : string) : string :=
  match s with
  | EmptyString => EmptyString
  | String c s' => if strip_it c then lstrip strip_it s' else s
  end.

(** [s.rstrip(chars)] *)
Fixpoint rstrip (strip_it : ascii → bool) (s : string) : string :=
  match s with
  | EmptyString => EmptyString
  | String c s' =>
      match rstrip strip_it s' with
      | EmptyString => if strip_it c then EmptyString else String c EmptyString
      | r => String c r
      end
  end.

(** [s.strip()] *)
Definition strip (s : string) : string := rstrip is_space (lstrip is_space s).

(** [s.find(sub)], counting from [i] *)
Fixpoint find_from (sub s : string) (i : Z) : Z :=
  if String.prefix sub s then i
  else match s with
       | EmptyString => -1
       | String _ s' => find_from sub s' (i + 1)
       end.

Definition find (sub s : string) : Z := find_from sub s 0.

(** [s[n:]] for [n >= 0] *)
Fixpoint drop (n : nat) (s : string) : string :=
  match n, s with
  | O, _ => s
  | S n', String _ s' => drop n' s'
  | S _, EmptyString => EmptyString
  end.

(** [s.replace(old, new)] for a non-empty [old]: the occurrences are found
    from the left and do not overlap. [skip] counts the characters of the
    occurrence just replaced that are still to be passed over. *)
Fixpoint replace_from (old new : string) (skip : nat) (s : string) : string :=
  match s with
  | EmptyString => EmptyString
  | String c s' =>
      match skip with
      | S k => replace_from old new k s'
      | O =>
          if String.prefix old s
          then new +:+ replace_from old new (String.length old - 1) s'
          else String c (replace_from old new 0 s')
      end
  end.

Definition replace (old new s : string) : string := replace_from old new 0 s.

(** [s.split()] without arguments: the maximal runs of non-space
    characters. *)
Fixpoint split (s : string) : list string :=
  match s with
  | EmptyString => []
  | String c s' =>
      if is_space c then split s'
      else match s' with
           | EmptyString => [String c EmptyString]
           | String c' _ =>
               if is_space c' then String c EmptyString :: split s'
               else match split s' with
                    | w :: ws => String c w :: ws
                    | [] => [String c EmptyString]
                    end
           end
  end.

End Text.

(** ** [QueryGenerator._clean_sql] and the check [ChatbotAgent.process]
       makes on its result *)

Definition fence : string := "```".

Definition is_semicolon (c : ascii) : bool := Ascii.eqb c ";".

(** The first line of [_clean_sql]: both [replace] calls. *)
Definition without_fences (sql : string) : string :=
  Text.replace fence "" (Text.replace (fence +:+ "sql") "" sql).

(** [_clean_sql] *)
Definition clean_sql (sql : string) : string :=
  let sql := without_fences sql in
  let select_pos := Text.find "SELECT" (Text.upper sql) in
  let sql := if 0 <? select_pos then Text.drop (Z.to_nat select_pos) sql else sql in
  Text.rstrip is_semicolon (Text.strip sql).


(** ** [SimpleCacheManager] *)

Section Cache.

(** The cached values, and [hashlib.md5(b).hexdigest()]. *)
Context {V : Type}.
Variable md5_hexdigest : string → string.

(** [_generate_key] *)
Definition generate_key (user_prompt user_id : string) : string :=
  let normalized_prompt := Str.join " " (Text.split (Text.strip (Str.lower user_prompt))) in
  let key_string := user_id +:+ "::" +:+ normalized_prompt in
  md5_hexdigest key_string.

(** [get] *)
Definition cache_get (cache : gmap string V) (user_prompt user_id : string) : option V :=
  cache !! generate_key user_prompt user_id.

(** [set] *)
Definition cache_set (cache : gmap string V) (user_prompt user_id : string) (value : V)
  : gmap string V :=
  let key := generate_key user_prompt user_id in
  if negb (String.eqb key "") then <[key := value]> cache else cache.

End Cache.

(** ** [ChatbotAgent._classify_prompt_type]

    The agent's [llm_manager] is taken with its multi-model backend, where
    [FreeLLMManager.generate] hands its arguments to
    [MultiModelLLMManager.generate] and returns or raises what it does. *)

Definition general_keywords : list string :=
  ["joke"; "hello"; "hi"; "hey"; "thanks"; "thank you"; "bye"; "goodbye";
   "who are you"; "what are you"; "what is your name"; "how do you work";
   "tell me about yourself"; "what can you do"].

Definition data_keywords : list string :=
  ["show me"; "what is"; "how much"; "how many"; "total"; "sum"; "average";
   "revenue"; "sales"; "profit"; "transaction"; "monthly"; "yearly"; "daily";
   "list"; "find"; "get"; "display"; "tell me about"; "analyze"; "compare";
   "top"; "bottom"; "best"; "worst"; "improve"; "improvement"; "suggestion";
   "recommend"; "trend"; "growth"; "performance"; "insight"].

Definition meta_keywords : list string :=
  ["what tables"; "what columns"; "what schema"; "database structure";
   "can you"; "what can"; "how can"; "show database"; "show schema"].

(** The [system_prompt] of the fallback, line breaks and indentation as in
    the source. *)
Definition triage_system_prompt : string :=
  "
        You are a highly accurate request classifier. Classify the user's prompt into one of three categories:

        1. 'data_query': Asking for specific information, numbers, lists, calculations, or business analysis from a database.
        2. 'meta_query': Asking ABOUT the database structure, tables, or AI capabilities.
        3. 'general_conversation': Greetings, jokes, casual conversation, or questions about the AI itself.

        Respond with ONLY the category name in lowercase.
        ".

(** The one-character string of a double quote. *)
Definition dquote : string := String (Ascii.ascii_of_nat 34) EmptyString.

(** The request of the fallback: [temperature=0.0], [max_tokens=20] and the
    default [fix_typos=True]. *)
Definition triage_request (prompt : string) : request :=
  {| messages := [{| role := Some "system"; content := Some triage_system_prompt |};
                  {| role := Some "user";
                     content := Some ("Classify: '" +:+ prompt +:+ "'") |}];
     req_temperature := 0; max_tokens := 20; fix_typos := true |}.

(** What the [try] block makes of the answer: a [str] is lowercased,
    stripped and freed of quotes, then searched for the category names;
    any other value has no [lower] and ends in the [except] clause. *)
Definition read_category (o : outcome) : string :=
  match o with
  | Returned (PStr response) =>
      let cleaned_response :=
        Text.replace dquote "" (Text.replace "'" "" (Text.strip (Str.lower response))) in
      if Str.contains "data_query" cleaned_response then "data_query"
      else if Str.contains "meta_query" cleaned_response then "meta_query"
      else "general_conversation"
  | _ => "data_query"
  end.

Section Triage.

Context {World : Type}.
Variable groq_chat :
  string -> list message -> Q -> Z -> Z -> World -> (pyval + exn) * World.
Variable requests_post : http_request -> World -> (response + exn) * World.
Variable gemini_generate :
  string -> string -> string -> Q -> Z -> World -> (pyval + exn) * World.
Variable fix_text : string -> string.

(** [_classify_prompt_type]: the category, the manager and the world after
    the call, and the adapter invocations it caused. *)
Definition classify_prompt_type (prompt : string) (mgr : manager) (w : World)
  : string * manager * World * list invocation :=
  let prompt_lower := Str.lower prompt in
  if Str.any_in general_keywords prompt_lower then ("general_conversation", mgr, w, [])
  else if Str.any_in data_keywords prompt_lower then ("data_query", mgr, w, [])
  else if Str.any_in meta_keywords prompt_lower then ("meta_query", mgr, w, [])
  else
    let '(o, mgr', w', tr) :=
      generate groq_chat requests_post gemini_generate fix_text
        (triage_request prompt) mgr w in
    (read_category o, mgr', w', tr).

End Triage.

(** Every character of [s] satisfies [Q]. *)
Fixpoint all_chars (Q : ascii → bool) (s : string) : bool :=
  match s with
  | EmptyString => true
  | String c s' => Q c && all_chars Q s'
  end.

(** The text has ASCII characters only. *)
Definition is_ascii (s : string) : bool :=
  all_chars (λ c, (Ascii.nat_of_ascii c <? 128)%nat) s.

(** ** A service that answers 410 or 404 *)

Section Gone.

Context {World : Type}.
Variable requests_post : http_request -> World -> (response + exn) * World.

(** The service answers each of these POSTs, made one after the other
    from the world [w], with the status 410 or 404; the result is the
    world after the last of them. *)
Fixpoint answers_gone (reqs : list http_request) (w : World) : option World :=
  match reqs with
  | [] => Some w
  | r :: rest =>
      match requests_post r w with
      | (inl resp, w1) =>
          if (status_code resp =? 410) || (status_code resp =? 404)
          then answers_gone rest w1
          else None
      | (inr _, _) => None
      end
  end.

End Gone.

(** * Properties *)

(** ** Strings and classification *)

Lemma append_part_spec (parts : list string) (msg : message) :
  append_part parts msg = parts ++ (if known_role msg then [labelled msg] else []).
Proof.
  unfold append_part, known_role, labelled, role_label.
  destruct (String.eqb (default "user" (role msg)) "system"); [reflexivity|].
  destruct (String.eqb (default "user" (role msg)) "user"); [reflexivity|].
  destruct (String.eqb (default "user" (role msg)) "assistant"); [reflexivity|].
  simpl. by rewrite app_nil_r.
Qed.

Lemma fold_prompt_parts (msgs : list message) (acc : list string) :
  fold_left append_part msgs acc = acc ++ (labelled <$> List.filter known_role msgs).
Proof.
  revert acc. induction msgs as [|msg msgs IH]; intros acc; simpl.
  - by rewrite app_nil_r.
  - rewrite IH, append_part_spec. destruct (known_role msg); simpl.
    + by rewrite <- app_assoc.
    + by rewrite app_nil_r.
Qed.

(** C10. Flattening a message sequence keeps exactly the messages whose
    role (['user'] when the key is absent) is ['system'], ['user'] or
    ['assistant'], in their original order, each as its role label, a
    colon, its content and a newline, joined by newlines; a message with
    any other role leaves no mark on the prompt. *)
Theorem messages_to_prompt_spec (msgs : list message) :
  messages_to_prompt msgs = prompt_spec msgs ∧
  ∀ before msg after,
    msgs = before ++ msg :: after →
    known_role msg = false →
    messages_to_prompt msgs = messages_to_prompt (before ++ after).
Proof.
  assert (E : ∀ l, messages_to_prompt l = prompt_spec l).
  { intros l. unfold messages_to_prompt, prompt_spec. by rewrite fold_prompt_parts. }
  split; [apply E|].
  intros before msg after -> Hrole. rewrite !E. unfold prompt_spec.
  rewrite !List.filter_app. simpl. by rewrite Hrole.
Qed.

Lemma messages_to_prompt_spec_witness :
  let sys := {| role := Some "system"; content := Some "Be brief." |} in
  let tool := {| role := Some "tool"; content := Some "42" |} in
  let usr := {| role := None; content := Some "Capital of France?" |} in
  messages_to_prompt [sys; tool; usr] = prompt_spec [sys; tool; usr] ∧
  messages_to_prompt [sys; tool; usr] = messages_to_prompt [sys; usr].
Proof.
  intros sys tool usr.
  destruct (messages_to_prompt_spec [sys; tool; usr]) as [H1 H2].
  split; [exact H1|].
  apply (H2 [sys] tool [usr]); reflexivity.
Defined.

Example prompt_of_three :
  messages_to_prompt
    [{| role := Some "system"; content := Some "Be brief." |};
     {| role := Some "tool"; content := Some "42" |};
     {| role := None; content := Some "Capital of France?" |}]
  = "System: Be brief." +:+ Str.nl +:+ Str.nl +:+ "User: Capital of France?" +:+ Str.nl.
Proof. reflexivity. Qed.

Lemma prefix_app (a b : string) : String.prefix a (a +:+ b) = true.
Proof.
  induction a as [|c a IH]; simpl.
  - by destruct b.
  - destruct (ascii_dec c c); [exact IH | congruence].
Qed.

Lemma contains_of_prefix (kw s : string) :
  String.prefix kw s = true → Str.contains kw s = true.
Proof. intros H. destruct s; cbn [Str.contains]; by rewrite H. Qed.

Lemma contains_prefix (kw rest : string) : Str.contains kw (kw +:+ rest) = true.
Proof. apply contains_of_prefix, prefix_app. Qed.

Lemma str_app_cons (x : ascii) (a b : string) : String x a +:+ b = String x (a +:+ b).
Proof. reflexivity. Qed.

Lemma str_app_assoc (a b c : string) : (a +:+ b) +:+ c = a +:+ (b +:+ c).
Proof. induction a as [|x a IH]; [done | by rewrite !str_app_cons, IH]. Qed.

Lemma lower_app (a b : string) : Str.lower (a +:+ b) = Str.lower a +:+ Str.lower b.
Proof.
  induction a as [|c a IH]; [done|].
  rewrite str_app_cons. simpl. by rewrite IH, str_app_cons.
Qed.

(** The aggregated error of the Hugging Face adapter is one of the signals
    the dispatcher reads as "model unavailable". *)
Lemma all_failed_is_unavailable (le : option string) :
  classify (PyError "Exception" (all_failed_message le)) = PermanentlyUnavailable.
Proof.
  unfold classify, all_failed_message, is_model_unavailable. simpl str_exn.
  rewrite lower_app.
  change (Str.lower "All Hugging Face models failed. Last error: ")
    with ("all hugging face models failed" +:+ ". last error: ").
  rewrite str_app_assoc, contains_prefix.
  by rewrite !orb_true_r.
Qed.

Lemma classify_unavailable (e : exn) :
  classify e = PermanentlyUnavailable ↔
  is_model_unavailable (Str.lower (str_exn e)) = true.
Proof.
  unfold classify. destruct (is_model_unavailable (Str.lower (str_exn e))).
  - done.
  - destruct (is_retryable (Str.lower (str_exn e))); split; done.
Qed.

(** ** Counters *)

Lemma total_failed_once (s : gmap string counts) (p q : string) (c : counts) :
  s !! p = Some c →
  total (<[p := failed_once c]> s) q = (total s q + if String.eqb p q then 1 else 0)%nat.
Proof.
  intros Hc. unfold total. destruct (String.eqb_spec p q) as [->|Hne].
  - rewrite lookup_insert_eq, Hc. simpl. lia.
  - rewrite lookup_insert_ne; [lia|done].
Qed.

Lemma total_succeeded_once (s : gmap string counts) (p q : string) (c : counts) :
  s !! p = Some c →
  total (<[p := succeeded_once c]> s) q = (total s q + if String.eqb p q then 1 else 0)%nat.
Proof.
  intros Hc. unfold total. destruct (String.eqb_spec p q) as [->|Hne].
  - rewrite lookup_insert_eq, Hc. simpl. lia.
  - rewrite lookup_insert_ne; [lia|done].
Qed.

Lemma insert_keeps_keys (s : gmap string counts) (p q : string) (c : counts) :
  is_Some (s !! q) → is_Some (<[p := c]> s !! q).
Proof.
  intros Hq. destruct (decide (p = q)) as [->|Hne].
  - rewrite lookup_insert_eq. eauto.
  - by rewrite lookup_insert_ne.
Qed.

Lemma invocations_app (p : string) (a b : list invocation) :
  invocations p (a ++ b) = (invocations p a + invocations p b)%nat.
Proof. unfold invocations. by rewrite List.filter_app, length_app. Qed.

Lemma returned_then_failed_app (p : string) (a b : list invocation) :
  returned_then_failed p (a ++ b) = (returned_then_failed p a + returned_then_failed p b)%nat.
Proof. unfold returned_then_failed. by rewrite List.filter_app, length_app. Qed.

Lemma flag_step_trans (a b c : model_info) : flag_step a b → flag_step b c → flag_step a c.
Proof. unfold flag_step. intros [->| ->] [->| ->]; auto. Qed.

Lemma flag_step_provider (m m' : model_info) : flag_step m m' → provider m' = provider m.
Proof. by intros [->| ->]. Qed.

Lemma flag_step_disabled (m m' : model_info) :
  flag_step m m' → enabled m = false → enabled m' = false.
Proof. by intros [->| ->]. Qed.

Lemma flag_step_enabled (m m' : model_info) :
  flag_step m m' → enabled m' = true → enabled m = true.
Proof. intros [->| ->]; [done|]. simpl. done. Qed.

Section Facts.

Context {World : Type}.
Variable groq_chat :
  string -> list message -> Q -> Z -> Z -> World -> (pyval + exn) * World.
Variable requests_post : http_request -> World -> (response + exn) * World.
Variable gemini_generate :
  string -> string -> string -> Q -> Z -> World -> (pyval + exn) * World.
Variable fix_text : string -> string.

Local Abbreviation hf_try := (hf_try requests_post).
Local Abbreviation hf_iter := (hf_iter requests_post).
Local Abbreviation hf_loop := (hf_loop requests_post).
Local Abbreviation generate_with_huggingface := (generate_with_huggingface requests_post).
Local Abbreviation call_adapter := (call_adapter groq_chat requests_post gemini_generate).
Local Abbreviation attempt := (attempt groq_chat requests_post gemini_generate fix_text).
Local Abbreviation generate_loop := (generate_loop groq_chat requests_post gemini_generate fix_text).
Local Abbreviation generate := (generate groq_chat requests_post gemini_generate fix_text).
Local Abbreviation generate_all := (generate_all groq_chat requests_post gemini_generate fix_text).
Local Abbreviation all_fail := (all_fail groq_chat requests_post gemini_generate).
Local Abbreviation answers_gone := (answers_gone requests_post).

(** ** The Hugging Face adapter *)

(** One model id costs one POST, or a POST, five seconds and the same
    POST once more; never a third. *)
Lemma hf_try_wire (rq : http_request) (w w' : World) t ev :
  hf_try rq w = (t, w', ev) → one_model_wire rq ev.
Proof.
  unfold hf_try, one_model_wire. intros H.
  repeat case_match; simplify_eq; auto.
Qed.

Lemma hf_iter_wire mk last id (w w' : World) r ev :
  hf_iter mk last id w = (r, w', ev) → one_model_wire (mk id) ev.
Proof.
  unfold hf_iter. destruct (hf_try (mk id) w) as [[t w1] ev1] eqn:E.
  intros H. simplify_eq. by eapply hf_try_wire.
Qed.

(** Only the attempt at [models_to_try[-1]] lets an exception out. *)
Lemma hf_iter_raise mk last id (w w' : World) e ev :
  hf_iter mk last id w = (IterRaise e, w', ev) → id = last.
Proof.
  unfold hf_iter. destruct (hf_try (mk id) w) as [[t w1] ev1].
  intros H. simplify_eq. destruct t as [v| |e0]; try done.
  unfold hf_except in *. apply String.eqb_eq.
  destruct e0; repeat case_match; simplify_eq; done.
Qed.

Lemma hf_loop_failure mk last (ids : list string) :
  last ∉ ids →
  ∀ le (w w' : World) e ev,
    hf_loop mk last (ids ++ [last]) le w = (inr e, w', ev) →
    (∃ groups,
        Forall2 (λ id g, one_model_wire (mk id) g) (ids ++ [last]) groups ∧
        ev = concat groups) ∧
    ∃ w0 g,
      hf_iter mk last last w0 = (IterRaise e, w', g) ∨
      ∃ msg, hf_iter mk last last w0 = (IterContinue msg, w', g) ∧
             e = PyError "Exception" (all_failed_message (Some msg)).
Proof.
  induction ids as [|id ids IH]; intros Hlast le w w' e ev H; simpl in H.
  - destruct (hf_iter mk last last w) as [[r w1] ev1] eqn:E.
    pose proof (hf_iter_wire _ _ _ _ _ _ _ E) as Hw.
    destruct r as [v|msg|e1]; simplify_eq.
    + split.
      * exists [ev1]. simpl. split; [|done].
        constructor; [exact Hw | constructor].
      * exists w, ev1. right. by exists msg.
    + split.
      * exists [ev]. simpl. split; [|by rewrite app_nil_r].
        constructor; [exact Hw | constructor].
      * exists w, ev. by left.
  - destruct (hf_iter mk last id w) as [[r w1] ev1] eqn:E.
    pose proof (hf_iter_wire _ _ _ _ _ _ _ E) as Hw.
    destruct r as [v|msg|e1]; simplify_eq.
    + destruct (hf_loop mk last (ids ++ [last]) (Some msg) w1) as [[r2 w2] ev2] eqn:E2.
      simplify_eq.
      apply not_elem_of_cons in Hlast as [_ Hlast].
      destruct (IH Hlast _ _ _ _ _ E2) as [(groups & HF & ->) Hend].
      split; [|exact Hend].
      exists (ev1 :: groups). split; [by constructor|done].
    + apply hf_iter_raise in E. apply not_elem_of_cons in Hlast as [Hne _]. done.
Qed.

(** The failure that surfaces, tied to the run: the loop over the ids
    before the final one ends without a return, and the final id is tried
    in the world that loop leaves. *)
Lemma hf_loop_failure_tied mk last (ids : list string) :
  last ∉ ids →
  ∀ le (w w' : World) e ev,
    hf_loop mk last (ids ++ [last]) le w = (inr e, w', ev) →
    ∃ le' w0 ev0 g,
      hf_loop mk last ids le w
        = (inr (PyError "Exception" (all_failed_message le')), w0, ev0) ∧
      ev = ev0 ++ g ∧
      (hf_iter mk last last w0 = (IterRaise e, w', g) ∨
       ∃ msg, hf_iter mk last last w0 = (IterContinue msg, w', g) ∧
              e = PyError "Exception" (all_failed_message (Some msg))).
Proof.
  induction ids as [|id ids IH]; intros Hlast le w w' e ev H; simpl in H.
  - destruct (hf_iter mk last last w) as [[r w1] ev1] eqn:E.
    exists le, w, []. simpl.
    destruct r as [v|msg|e1]; simplify_eq.
    + exists ev1. split; [done|]. split; [by rewrite app_nil_r|].
      right. by exists msg.
    + exists ev. split; [done|]. split; [done|]. by left.
  - destruct (hf_iter mk last id w) as [[r w1] ev1] eqn:E.
    destruct r as [v|msg|e1]; simplify_eq.
    + destruct (hf_loop mk last (ids ++ [last]) (Some msg) w1) as [[r2 w2] ev2] eqn:E2.
      simplify_eq.
      apply not_elem_of_cons in Hlast as [_ Hlast].
      destruct (IH Hlast _ _ _ _ _ E2) as (le' & w0 & ev0 & g & Hl & -> & Hend).
      exists le', w0, (ev1 ++ ev0), g. simpl. rewrite E, Hl.
      split; [done|]. split; [by rewrite app_assoc|done].
    + apply hf_iter_raise in E. apply not_elem_of_cons in Hlast as [Hne _]. done.
Qed.

(** A model id whose POST is answered 410 or 404 costs that one POST and
    the loop goes on. *)
Lemma hf_iter_gone mk fin id (w w1 : World) resp :
  requests_post (mk id) w = (inl resp, w1) →
  (status_code resp =? 410) || (status_code resp =? 404) = true →
  hf_iter mk fin id w = (IterContinue (gone_message id), w1, [Posted (mk id)]).
Proof. intros H Hst. unfold hf_iter, hf_try. by rewrite H, Hst. Qed.

Lemma hf_loop_gone_prefix mk fin (gone rest : list string) :
  ∀ le (w w1 : World),
    answers_gone (mk <$> gone) w = Some w1 →
    hf_loop mk fin (gone ++ rest) le w =
      (let '(r, w', ev') :=
         hf_loop mk fin rest
           (match last gone with Some id => Some (gone_message id) | None => le end) w1 in
       (r, w', ((λ id, Posted (mk id)) <$> gone) ++ ev')).
Proof.
  induction gone as [|id gone IH]; intros le w w1 H.
  - simpl in H. simplify_eq. simpl.
    by destruct (hf_loop mk fin rest le w1) as [[r w'] ev'].
  - rewrite fmap_cons in H. simpl in H.
    destruct (requests_post (mk id) w) as [[resp|e] w2] eqn:E; [|done].
    destruct ((status_code resp =? 410) || (status_code resp =? 404)) eqn:Hst; [|done].
    rewrite <- app_comm_cons. simpl.
    rewrite (hf_iter_gone mk fin id w w2 resp E Hst).
    rewrite (IH (Some (gone_message id)) w2 w1 H).
    assert (Hlast : match last (id :: gone) with
                    | Some id0 => Some (gone_message id0)
                    | None => le
                    end
                    = match last gone with
                      | Some id0 => Some (gone_message id0)
                      | None => Some (gone_message id)
                      end).
    { destruct gone as [|id2 gone]; [done|]. rewrite last_cons_cons.
      destruct (last (id2 :: gone)) eqn:Hl; [done|]. by apply last_None in Hl. }
    rewrite Hlast.
    by destruct (hf_loop mk fin rest _ w1) as [[r w'] ev'].
Qed.

(** Every model id begins with its POST. *)
Lemma hf_loop_first_post mk fin id (rest : list string) le (w w' : World) r ev :
  hf_loop mk fin (id :: rest) le w = (r, w', ev) →
  ∃ tail, ev = Posted (mk id) :: tail.
Proof.
  simpl. destruct (hf_iter mk fin id w) as [[it w1] ev1] eqn:E.
  pose proof (hf_iter_wire _ _ _ _ _ _ _ E) as Hw.
  destruct it as [v|msg|e].
  - intros H. simplify_eq. destruct Hw as [->| ->]; eauto.
  - destruct (hf_loop mk fin rest (Some msg) w1) as [[r2 w2] ev2].
    intros H. simplify_eq. destruct Hw as [->| ->]; simpl; eauto.
  - intros H. simplify_eq. destruct Hw as [->| ->]; eauto.
Qed.

Lemma last_default (l : list string) (x d : string) :
  last l = Some x → List.last l d = x.
Proof.
  induction l as [|a l IH]; [done|].
  destruct l as [|b l]; [by intros [= ->]|].
  rewrite last_cons_cons. intros H. by apply IH.
Qed.

(** C7. The Hugging Face adapter POSTs one request to one model id
    after the other: the url ends in the model id, the key, the prompt,
    the parameters and the timeout are those of the call. As long as the
    service answers 410 or 404, each id costs exactly one POST and the
    adapter goes on with the next declared id, the primary one first and
    then the fallbacks in declared order: its result is that of trying
    the remaining ids, the next one is POSTed, and when no id remains the
    adapter raises the "All Hugging Face models failed" error with the
    message of the final id. Whenever the adapter surfaces a failure,
    every id was POSTed in declared order (once, or twice around the
    warm-up delay), the ids before the final one ended without a return,
    and the failure is the exception of the attempt at the final id or the
    aggregated error carrying the failure text of that attempt. *)
Theorem huggingface_fallback_order (m : model_info) (rq : request) (key : string)
    (w : World) :
  api_key m = Some key →
  NoDup (models_to_try m) →
  let ids := models_to_try m in
  let final := List.last ids "" in
  let post := λ id,
    {| api_url := "https://api-inference.huggingface.co/models/" +:+ id;
       authorization := "Bearer " +:+ key;
       json := {| inputs := messages_to_prompt (messages rq);
                  temperature := req_temperature rq;
                  max_new_tokens := max_tokens rq;
                  return_full_text := false |};
       post_timeout := timeout m |} in
  (∀ gone rest w1,
      ids = gone ++ rest →
      answers_gone (post <$> gone) w = Some w1 →
      ∃ r w' ev',
        hf_loop post final rest (gone_message <$> last gone) w1 = (r, w', ev') ∧
        generate_with_huggingface m rq w
          = (r, w', ((λ id, Posted (post id)) <$> gone) ++ ev') ∧
        match rest with
        | [] =>
            r = inr (PyError "Exception"
                       ("All Hugging Face models failed. Last error: " +:+
                        "Model " +:+ final +:+ " is no longer available (410 Gone)")) ∧
            w' = w1 ∧ ev' = []
        | id :: _ => ∃ tail, ev' = Posted (post id) :: tail
        end) ∧
  (∀ e w' ev,
      generate_with_huggingface m rq w = (inr e, w', ev) →
      (∃ groups,
          Forall2 (λ id g, one_model_wire (post id) g) ids groups ∧
          ev = concat groups) ∧
      ∃ le w0 ev0 g,
        hf_loop post final (removelast ids) None w
          = (inr (PyError "Exception"
                    ("All Hugging Face models failed. Last error: " +:+ default "None" le)),
             w0, ev0) ∧
        ev = ev0 ++ g ∧
        (hf_iter post final final w0 = (IterRaise e, w', g) ∨
         ∃ msg, hf_iter post final final w0 = (IterContinue msg, w', g) ∧
                e = PyError "Exception"
                      ("All Hugging Face models failed. Last error: " +:+ msg))).
Proof.
  intros Hkey Hnd ids final post.
  set (mk := hf_request key (messages_to_prompt (messages rq)) rq (timeout m)).
  assert (Hpost : post = mk) by reflexivity.
  clearbody post. subst post.
  assert (Hgen : generate_with_huggingface m rq w = hf_loop mk final ids None w).
  { unfold generate_with_huggingface. by rewrite Hkey. }
  split.
  - intros gone rest w1 Hids Hgone.
    pose proof (hf_loop_gone_prefix mk final gone rest None w w1 Hgone) as Hpre.
    rewrite <- Hids, <- Hgen in Hpre.
    assert (Hle : match last gone with
                  | Some id => Some (gone_message id)
                  | None => None
                  end = gone_message <$> last gone) by by destruct (last gone).
    rewrite Hle in Hpre.
    destruct (hf_loop mk final rest (gone_message <$> last gone) w1)
      as [[r w'] ev'] eqn:Hrest.
    exists r, w', ev'. split; [done|]. split; [done|].
    destruct rest as [|id rest].
    + simpl in Hrest. simplify_eq. split; [|done].
      rewrite app_nil_r in Hids.
      destruct (last gone) as [x|] eqn:Hl.
      * assert (Hfinal : final = x).
        { unfold final. rewrite Hids. by apply last_default. }
        by rewrite Hfinal.
      * apply last_None in Hl. rewrite Hl in Hids. by unfold models_to_try in Hids.
    + by eapply hf_loop_first_post.
  - intros e w' ev H. rewrite Hgen in H.
    assert (Hsplit : ids = removelast ids ++ [final]).
    { apply app_removelast_last. done. }
    unfold ids in Hnd. fold ids in Hnd.
    rewrite Hsplit in H, Hnd.
    apply NoDup_app in Hnd as (_ & Hnot & _).
    assert (Hfresh : final ∉ removelast ids).
    { intros Hin. apply (Hnot _ Hin). by left. }
    destruct (hf_loop_failure mk final _ Hfresh None w w' e ev H) as [Hgroups _].
    split; [by rewrite <- Hsplit in Hgroups|].
    destruct (hf_loop_failure_tied mk final _ Hfresh None w w' e ev H)
      as (le & w0 & ev0 & g & Hl & Hev & Hend).
    by exists le, w0, ev0, g.
Qed.

(** ** The dispatcher: one attempt *)

Lemma attempt_disabled rq idx m (f : frame World) :
  enabled m = false → attempt rq idx m f = StepNext m f.
Proof. intros H. unfold attempt. by rewrite H. Qed.

(** The adapter raises: one failure is recorded, the model is disabled
    exactly when the error reads as "unavailable", the loop goes on. *)
Lemma attempt_raises rq idx m (f : frame World) e w1 wire c :
  enabled m = true →
  call_adapter rq m (world f) = Some (inr e, w1, wire) →
  stats f !! provider m = Some c →
  attempt rq idx m f =
    StepNext (match classify e with PermanentlyUnavailable => disable m | _ => m end)
      {| stats := <[provider m := failed_once c]> (stats f); world := w1;
         attempted_models := attempted_models f ++ [name m];
         last_error := Some e;
         trace := trace f ++ [{| inv_index := idx; inv_provider := provider m;
                                 inv_wire := wire; inv_result := inr e;
                                 inv_handled := Some e |}] |}.
Proof.
  intros Hen Hcall Hc. unfold attempt, bump_failures. by rewrite Hen, Hcall, Hc.
Qed.

(** The adapter returns a text: one success is recorded and [generate]
    returns. *)
Lemma attempt_returns_text rq idx m (f : frame World) s w1 wire c :
  enabled m = true →
  call_adapter rq m (world f) = Some (inl (PStr s), w1, wire) →
  stats f !! provider m = Some c →
  attempt rq idx m f =
    StepReturn (normalized fix_text rq s)
      {| stats := <[provider m := succeeded_once c]> (stats f); world := w1;
         attempted_models := attempted_models f ++ [name m];
         last_error := last_error f;
         trace := trace f ++ [{| inv_index := idx; inv_provider := provider m;
                                 inv_wire := wire; inv_result := inl (PStr s);
                                 inv_handled := None |}] |}.
Proof.
  intros Hen Hcall Hc. unfold attempt, bump_success, normalized, fix_llm_response.
  rewrite Hen, Hcall, Hc. simpl.
  destruct (fix_typos rq); simpl; [|done].
  destruct (String.eqb s ""); done.
Qed.

(** Whatever the adapter and the normalizer do, one attempt on a model
    whose provider has its counters: never lets an exception out of
    [generate], logs at most one invocation, changes the flag only from
    enabled to disabled, disables the model whenever the exception it
    handled reads as "unavailable", and moves the counters by one per
    invocation plus one more when a returned value was then counted as a
    failure. *)
Lemma attempt_inv rq idx m (f : frame World) :
  is_Some (stats f !! provider m) →
  ∃ f' new,
    ((∃ v, attempt rq idx m f = StepReturn v f' ∧
           ∀ i, i ∈ new → inv_handled i = None) ∨
     (∃ m', attempt rq idx m f = StepNext m' f' ∧ flag_step m m' ∧
            ∀ i e, i ∈ new → inv_handled i = Some e →
                   classify e = PermanentlyUnavailable → m' = disable m)) ∧
    trace f' = trace f ++ new ∧
    (∀ q, is_Some (stats f !! q) → is_Some (stats f' !! q)) ∧
    Forall (λ i, inv_index i = idx ∧ inv_provider i = provider m ∧ enabled m = true) new ∧
    (∀ p, total (stats f') p
          = (total (stats f) p + invocations p new + returned_then_failed p new)%nat).
Proof.
  intros [c Hc]. unfold attempt.
  assert (Hnone : ∀ p, (invocations p [] + returned_then_failed p [] = 0)%nat).
  { intros p. reflexivity. }
  destruct (enabled m) eqn:Hen; simpl.
  2:{ exists f, []. split.
      { right. exists m. split; [done|]. split; [by left|].
        intros i e Hi. by apply elem_of_nil in Hi. }
      split; [by rewrite app_nil_r|]. split; [done|]. split; [constructor|].
      intros p. specialize (Hnone p). lia. }
  destruct (call_adapter rq m (world f)) as [[[r w1] wire]|] eqn:Hcall.
  2:{ eexists _, []. split.
      { right. exists m. split; [done|]. split; [by left|].
        intros i e Hi. by apply elem_of_nil in Hi. }
      simpl. split; [by rewrite app_nil_r|]. split; [done|]. split; [constructor|].
      intros p. specialize (Hnone p). lia. }
  assert (Hone : ∀ (i : invocation) p,
             inv_provider i = provider m →
             invocations p [i] = if String.eqb (provider m) p then 1%nat else 0%nat).
  { intros i p Hp. unfold invocations. simpl. rewrite Hp.
    by destruct (String.eqb (provider m) p). }
  assert (Hrf : ∀ (i : invocation) p,
             inv_provider i = provider m →
             returned_then_failed p [i] =
               if String.eqb (provider m) p
               then match inv_result i, inv_handled i with
                    | inl _, Some _ => 1%nat
                    | _, _ => 0%nat
                    end
               else 0%nat).
  { intros i p Hp. unfold returned_then_failed. simpl. rewrite Hp.
    destruct (String.eqb (provider m) p); [|done].
    by destruct (inv_result i), (inv_handled i). }
  pose (entry := λ r h, {| inv_index := idx; inv_provider := provider m;
                           inv_wire := wire; inv_result := r; inv_handled := h |}).
  destruct r as [raw|e].
  - unfold bump_success. rewrite Hc.
    destruct (if fix_typos rq && truthy raw then fix_llm_response fix_text raw else inl raw)
      as [v|e] eqn:Hfix.
    + eexists _, [entry (inl raw) None]. split.
      { left. exists v. split; [done|].
        intros i Hi. apply list_elem_of_singleton in Hi. by subst i. }
      simpl. split; [done|]. split; [|split; [by repeat constructor|]].
      * intros q. apply insert_keeps_keys.
      * intros p. rewrite (total_succeeded_once _ _ _ _ Hc).
        rewrite Hone, Hrf by done. simpl. destruct (String.eqb (provider m) p); lia.
    + unfold bump_failures. rewrite lookup_insert_eq.
      eexists _, [entry (inl raw) (Some e)]. split.
      { right. eexists. split; [done|]. split.
        { unfold flag_step. destruct (classify e); auto. }
        intros i e' Hi He' Hcl. apply list_elem_of_singleton in Hi. subst i.
        simpl in He'. simplify_eq. by rewrite Hcl. }
      simpl. split; [done|]. split; [|split; [by repeat constructor|]].
      * intros q Hq. by do 2 apply insert_keeps_keys.
      * intros p.
        rewrite (total_failed_once _ _ _ (succeeded_once c)) by apply lookup_insert_eq.
        rewrite (total_succeeded_once _ _ _ _ Hc).
        rewrite Hone, Hrf by done. simpl. destruct (String.eqb (provider m) p); lia.
  - unfold bump_failures. rewrite Hc.
    eexists _, [entry (inr e) (Some e)]. split.
    { right. eexists. split; [done|]. split.
      { unfold flag_step. destruct (classify e); auto. }
      intros i e' Hi He' Hcl. apply list_elem_of_singleton in Hi. subst i.
      simpl in He'. simplify_eq. by rewrite Hcl. }
    simpl. split; [done|]. split; [|split; [by repeat constructor|]].
    * intros q. apply insert_keeps_keys.
    * intros p. rewrite (total_failed_once _ _ _ _ Hc).
      rewrite Hone, Hrf by done. simpl. destruct (String.eqb (provider m) p); lia.
Qed.

(** ** The dispatcher: the loop *)

Lemma loop_app rq (pre post : list model_info) :
  ∀ idx (f f' : frame World) pre',
    generate_loop rq idx pre f = (LoopEnd, pre', f') →
    generate_loop rq idx (pre ++ post) f =
      let '(x, post', f'') := generate_loop rq (idx + length pre)%nat post f' in
      (x, pre' ++ post', f'').
Proof.
  induction pre as [|m pre IH]; intros idx f f' pre' H; simpl in *.
  - simplify_eq. rewrite Nat.add_0_r. by destruct (generate_loop rq idx post f') as [[??]?].
  - destruct (attempt rq idx m f) as [v f1|m1 f1|e f1]; try done.
    destruct (generate_loop rq (S idx) pre f1) as [[x1 pre1] f2] eqn:E.
    simplify_eq. rewrite (IH _ _ _ _ E).
    replace (idx + S (length pre))%nat with (S idx + length pre)%nat by lia.
    by destruct (generate_loop rq (S idx + length pre) post f') as [[??]?].
Qed.

(** A prefix of the registry whose enabled models all fail: the loop
    runs through it, names each enabled model as attempted, keeps the
    last exception, and adds one failure to each enabled provider. *)
Lemma loop_all_fail rq (pre : list model_info) :
  ∀ idx (f : frame World) w1 es,
    all_fail rq pre (world f) = Some (w1, es) →
    stats_cover pre (stats f) →
    NoDup (provider <$> pre) →
    ∃ pre' f',
      generate_loop rq idx pre f = (LoopEnd, pre', f') ∧
      length pre' = length pre ∧
      world f' = w1 ∧
      attempted_models f' = attempted_models f ++ (name <$> List.filter enabled pre) ∧
      length es = length (List.filter enabled pre) ∧
      last_error f' = from_option Some (last_error f) (last es) ∧
      (∀ a, a ∈ pre → enabled a = true →
            stats f' !! provider a = failed_once <$> stats f !! provider a) ∧
      (∀ q, (∀ a, a ∈ pre → enabled a = true → provider a ≠ q) →
            stats f' !! q = stats f !! q) ∧
      ∃ new, trace f' = trace f ++ new ∧
             Forall (λ i, idx ≤ inv_index i < idx + length pre)%nat new.
Proof.
  induction pre as [|m pre IH]; intros idx f w1 es Hall Hcover Hnd; simpl in Hall.
  - simplify_eq. exists [], f. simpl. rewrite app_nil_r.
    repeat split; try done.
    + intros a Ha. by apply elem_of_nil in Ha.
    + exists []. by rewrite app_nil_r.
  - rewrite fmap_cons in Hnd. apply NoDup_cons in Hnd as [Hfresh Hnd].
    assert (Hcover' : ∀ s', (∀ q, is_Some (stats f !! q) → is_Some (s' !! q)) →
                            stats_cover pre s').
    { intros s' Hs' a Ha. apply Hs', Hcover. by right. }
    destruct (enabled m) eqn:Hen.
    + destruct (call_adapter rq m (world f)) as [[[[v|e] w2] wire]|] eqn:Hcall; try done.
      destruct (all_fail rq pre w2) as [[w3 es']|] eqn:Hrest; [|done].
      simplify_eq.
      destruct (Hcover m) as [c Hc]; [by left|].
      pose proof (attempt_raises rq idx m f e w2 wire c Hen Hcall Hc) as Hstep.
      set (f1 := {| stats := <[provider m := failed_once c]> (stats f); world := w2;
                    attempted_models := attempted_models f ++ [name m];
                    last_error := Some e;
                    trace := trace f ++ [{| inv_index := idx; inv_provider := provider m;
                                            inv_wire := wire; inv_result := inr e;
                                            inv_handled := Some e |}] |}) in *.
      destruct (IH (S idx) f1 w1 es' Hrest) as
        (pre' & f' & Hloop & Hlen & Hw & Hatt & Hes & Hlast & Hbump & Hsame & new & Htr & Hnew);
        [| exact Hnd |].
      { apply Hcover'. intros q Hq. simpl.
        destruct (decide (provider m = q)) as [->|Hne].
        - rewrite lookup_insert_eq. eauto.
        - by rewrite lookup_insert_ne. }
      eexists _, f'. simpl. rewrite Hstep, Hloop, Hen. simpl.
      split; [done|]. split; [simpl; by rewrite Hlen|]. split; [done|].
      split; [by rewrite Hatt; simpl; rewrite <- app_assoc|].
      split; [by rewrite Hes|].
      split.
      { rewrite Hlast. simpl. destruct es' as [|e' es'] using rev_ind; [done|].
        rewrite app_comm_cons, !last_snoc. done. }
      split.
      { intros a Ha Hena. apply elem_of_cons in Ha as [->|Ha].
        - rewrite Hsame; [simpl; by rewrite lookup_insert_eq, Hc|].
          intros a Ha _ Heq. apply Hfresh. rewrite <- Heq.
          apply list_elem_of_fmap. eauto.
        - rewrite (Hbump a Ha Hena). simpl.
          rewrite lookup_insert_ne; [done|].
          intros Heq. apply Hfresh. rewrite Heq.
          apply list_elem_of_fmap. eauto. }
      split.
      { intros q Hq. rewrite Hsame.
        - simpl. rewrite lookup_insert_ne; [done|]. apply (Hq m); [by left|done].
        - intros a Ha. apply Hq. by right. }
      eexists (_ :: new). split.
      { rewrite Htr. simpl. by rewrite <- app_assoc. }
      constructor; [simpl; lia|].
      eapply Forall_impl; [exact Hnew|]. simpl. intros; lia.
    + destruct (IH (S idx) f w1 es Hall) as
        (pre' & f' & Hloop & Hlen & Hw & Hatt & Hes & Hlast & Hbump & Hsame & new & Htr & Hnew);
        [by apply Hcover' | exact Hnd |].
      eexists _, f'. simpl. rewrite (attempt_disabled rq idx m f Hen), Hloop, Hen.
      split; [done|]. split; [simpl; by rewrite Hlen|].
      repeat (split; [done|]).
      split.
      { intros a Ha Hena. apply elem_of_cons in Ha as [->|Ha]; [congruence|]. by apply Hbump. }
      split.
      { intros q Hq. apply Hsame. intros a Ha. apply Hq. by right. }
      exists new. split; [done|].
      eapply Forall_impl; [exact Hnew|]. simpl. intros; lia.
Qed.

(** What holds of every run of the loop on a registry whose providers
    all have their counters. *)
Lemma loop_inv rq (ms : list model_info) :
  ∀ idx (f : frame World) x ms' f',
    stats_cover ms (stats f) →
    generate_loop rq idx ms f = (x, ms', f') →
    (∀ e, x ≠ LoopUncaught e) ∧
    Forall2 flag_step ms ms' ∧
    (∀ q, is_Some (stats f !! q) → is_Some (stats f' !! q)) ∧
    ∃ new,
      trace f' = trace f ++ new ∧
      Forall (λ i, (idx ≤ inv_index i)%nat ∧
                   ∃ m, ms !! (inv_index i - idx)%nat = Some m ∧
                        enabled m = true ∧ inv_provider i = provider m) new ∧
      (∀ i e, i ∈ new → inv_handled i = Some e →
              classify e = PermanentlyUnavailable →
              ∃ m', ms' !! (inv_index i - idx)%nat = Some m' ∧ enabled m' = false) ∧
      (∀ p, total (stats f') p
            = (total (stats f) p + invocations p new + returned_then_failed p new)%nat).
Proof.
  induction ms as [|m ms IH]; intros idx f x ms' f' Hcover H; simpl in H.
  - simplify_eq. split; [done|]. split; [constructor|]. split; [done|].
    exists []. split; [by rewrite app_nil_r|]. split; [constructor|].
    split; [intros i e Hi; by apply elem_of_nil in Hi|].
    intros p. unfold invocations, returned_then_failed. simpl. lia.
  - destruct (attempt_inv rq idx m f) as
      (f1 & new1 & Hstep & Htr1 & Hkeys1 & Hnew1 & Htot1); [apply Hcover; by left|].
    assert (Hhead : Forall (λ i, (idx ≤ inv_index i)%nat ∧
                      ∃ m0, (m :: ms) !! (inv_index i - idx)%nat = Some m0 ∧
                            enabled m0 = true ∧ inv_provider i = provider m0) new1).
    { eapply Forall_impl; [exact Hnew1|]. simpl. intros i (Hi & Hp & Hen).
      split; [lia|]. exists m. rewrite Hi, Nat.sub_diag. done. }
    destruct Hstep as [(v & Hv & Hnone)|(m1 & Hnext & Hflag & Hdis)].
    + rewrite Hv in H. simplify_eq.
      split; [done|]. split; [apply Forall2_same_length_lookup_2; [done|];
                              intros k a b Ha Hb; simplify_eq; by left|].
      split; [done|]. exists new1. split; [done|]. split; [done|]. split; [|done].
      intros i e Hi He. rewrite (Hnone i Hi) in He. done.
    + rewrite Hnext in H.
      destruct (generate_loop rq (S idx) ms f1) as [[x2 ms2] f2] eqn:Hloop.
      simplify_eq.
      destruct (IH (S idx) f1 x ms2 f') as
        (Hunc & Hflags & Hkeys2 & new2 & Htr2 & Hnew2 & Hdis2 & Htot2); [|exact Hloop|].
      { intros a Ha. apply Hkeys1, Hcover. by right. }
      split; [done|]. split; [by constructor|]. split; [by auto|].
      exists (new1 ++ new2). split; [by rewrite Htr2, Htr1, app_assoc|].
      split; [|split].
      * apply Forall_app. split; [done|].
        eapply Forall_impl; [exact Hnew2|]. simpl.
        intros i (Hi & a & Ha & Hen & Hp). split; [lia|]. exists a.
        replace (inv_index i - idx)%nat with (S (inv_index i - S idx)) by lia. done.
      * intros i e Hi He Hcl. apply elem_of_app in Hi as [Hi|Hi].
        -- rewrite Forall_forall in Hnew1. destruct (Hnew1 i Hi) as (Hidx & _).
           rewrite Hidx, Nat.sub_diag. exists m1. split; [done|].
           by rewrite (Hdis i e Hi He Hcl).
        -- rewrite Forall_forall in Hnew2. destruct (Hnew2 i Hi) as (Hidx & _).
           destruct (Hdis2 i e Hi He Hcl) as (m' & Hm' & Hen').
           exists m'. split; [|done].
           replace (inv_index i - idx)%nat with (S (inv_index i - S idx)) by lia. done.
      * intros p. rewrite Htot2, Htot1, invocations_app, returned_then_failed_app. lia.
Qed.

(** ** The dispatcher: whole calls *)

(** One call on a manager whose providers all have their counters. *)
Lemma generate_inv rq mgr (w w' : World) o mgr' tr :
  stats_cover (models mgr) (model_stats mgr) →
  generate rq mgr w = (o, mgr', w', tr) →
  (∀ e, o ≠ Uncaught e) ∧
  Forall2 flag_step (models mgr) (models mgr') ∧
  stats_cover (models mgr') (model_stats mgr') ∧
  Forall (λ i, ∃ m, models mgr !! inv_index i = Some m ∧
                    enabled m = true ∧ inv_provider i = provider m) tr ∧
  (∀ i e, i ∈ tr → inv_handled i = Some e →
          classify e = PermanentlyUnavailable →
          ∃ m', models mgr' !! inv_index i = Some m' ∧ enabled m' = false) ∧
  (∀ p, total (model_stats mgr') p
        = (total (model_stats mgr) p + invocations p tr + returned_then_failed p tr)%nat).
Proof.
  intros Hcover. unfold generate.
  set (f0 := {| stats := model_stats mgr; world := w; attempted_models := [];
                last_error := None; trace := [] |}).
  destruct (generate_loop rq 0 (models mgr) f0) as [[x ms'] f'] eqn:Hloop.
  intros H. simplify_eq.
  destruct (loop_inv rq (models mgr) 0 f0 x ms' f' Hcover Hloop) as
    (Hunc & Hflags & Hkeys & new & Htr & Hnew & Hdis & Htot).
  simpl in Htr. subst new. simpl.
  split.
  { intros e He. destruct x as [v|e0|]; try done. by apply (Hunc e0). }
  split; [done|]. split; [|split; [|split; [|done]]].
  - intros m' Hm'. apply list_elem_of_lookup in Hm' as [k Hk].
    destruct (Forall2_lookup_r _ _ _ _ _ Hflags Hk) as (m & Hm & Hstep).
    rewrite (flag_step_provider _ _ Hstep). apply Hkeys, Hcover.
    apply list_elem_of_lookup. eauto.
  - eapply Forall_impl; [exact Hnew|]. simpl. intros i (_ & m & Hm & Hrest).
    exists m. by rewrite Nat.sub_0_r in Hm.
  - intros i e Hi He Hcl. destruct (Hdis i e Hi He Hcl) as (m' & Hm' & Hen).
    exists m'. by rewrite Nat.sub_0_r in Hm'.
Qed.

(** Any sequence of calls on one manager instance. *)
Lemma generate_all_inv (rqs : list request) :
  ∀ mgr (w w' : World) os mgr' tr,
    stats_cover (models mgr) (model_stats mgr) →
    generate_all rqs mgr w = (os, mgr', w', tr) →
    Forall2 flag_step (models mgr) (models mgr') ∧
    stats_cover (models mgr') (model_stats mgr') ∧
    Forall (λ i, ∃ m, models mgr !! inv_index i = Some m ∧
                      enabled m = true ∧ inv_provider i = provider m) tr ∧
    (∀ p, total (model_stats mgr') p
          = (total (model_stats mgr) p + invocations p tr + returned_then_failed p tr)%nat).
Proof.
  induction rqs as [|rq rqs IH]; intros mgr w w' os mgr' tr Hcover H; simpl in H.
  - simplify_eq. split; [|split; [done|split; [constructor|]]].
    + apply Forall2_same_length_lookup_2; [done|].
      intros k a b Ha Hb. simplify_eq. by left.
    + intros p. unfold invocations, returned_then_failed. simpl. lia.
  - destruct (generate rq mgr w) as [[[o mgr1] w1] tr1] eqn:Hgen.
    destruct (generate_all rqs mgr1 w1) as [[[os2 mgr2] w2] tr2] eqn:Hall.
    simplify_eq.
    destruct (generate_inv _ _ _ _ _ _ _ Hcover Hgen) as
      (_ & Hflags1 & Hcover1 & Htr1 & _ & Htot1).
    destruct (IH _ _ _ _ _ _ Hcover1 Hall) as (Hflags2 & Hcover2 & Htr2 & Htot2).
    split; [|split; [done|split]].
    + eapply Forall2_trans; [|exact Hflags1|exact Hflags2].
      intros a b c. apply flag_step_trans.
    + apply Forall_app. split; [done|].
      eapply Forall_impl; [exact Htr2|]. simpl. intros i (m1 & Hm1 & Hen & Hp).
      destruct (Forall2_lookup_r _ _ _ _ _ Hflags1 Hm1) as (m & Hm & Hstep).
      exists m. split; [done|]. split; [by eapply flag_step_enabled|].
      by rewrite Hp, (flag_step_provider _ _ Hstep).
    + intros p. rewrite Htot2, Htot1, invocations_app, returned_then_failed_app. lia.
Qed.

(** The conservation law of the counters: over any sequence of calls the
    sum [success + failures] of a provider grows by the number of times
    its adapter was invoked, and by one more for every invocation that
    returned a value and was then counted as a failure as well. *)
Lemma counters_conservation (rqs : list request) mgr (w w' : World) os mgr' tr p :
  stats_cover (models mgr) (model_stats mgr) →
  generate_all rqs mgr w = (os, mgr', w', tr) →
  total (model_stats mgr') p
    = (total (model_stats mgr) p + invocations p tr + returned_then_failed p tr)%nat.
Proof.
  intros Hcover H. by destruct (generate_all_inv rqs _ _ _ _ _ _ Hcover H) as (_ & _ & _ & ->).
Qed.

(** C3. When every provider that is enabled at the start of the call
    fails, [generate] terminates with the exhaustion error: its attempted
    list is the names of the providers enabled at call start, in registry
    order (so as long as their number), and its last error is the
    exception of the last provider tried. *)
Theorem generate_exhausted (rq : request) (mgr : manager) (w w' : World) (es : list exn) :
  well_formed mgr →
  all_fail rq (models mgr) w = Some (w', es) →
  ∃ mgr' tr,
    generate rq mgr w =
      (AllFailed (name <$> List.filter enabled (models mgr)) (last es) (model_stats mgr'),
       mgr', w', tr) ∧
    length (name <$> List.filter enabled (models mgr))
      = length (List.filter enabled (models mgr)) ∧
    length es = length (List.filter enabled (models mgr)).
Proof.
  intros [Hcover Hnd] Hall. unfold generate.
  set (f0 := {| stats := model_stats mgr; world := w; attempted_models := [];
                last_error := None; trace := [] |}).
  destruct (loop_all_fail rq (models mgr) 0 f0 w' es Hall Hcover Hnd) as
    (pre' & f' & Hloop & _ & Hw & Hatt & Hes & Hlast & _).
  rewrite Hloop.
  exists {| models := pre'; model_stats := stats f' |}, (trace f').
  split; [|split; [apply length_fmap|exact Hes]].
  simpl in Hatt, Hlast. rewrite Hatt, Hlast, Hw. simpl.
  by destruct (last es).
Qed.

(** C1. When the enabled providers ahead of [m] all fail and [m], enabled,
    returns a text, [generate] returns that text (after the requested
    typo pass); each enabled provider ahead of [m] has one more failure
    and the same successes, [m] has one more success and the same
    failures, and the providers behind [m] are not invoked, keep their
    counters and keep their registry entries. *)
Theorem generate_first_success (rq : request) (mgr : manager)
    (pre post : list model_info) (m : model_info)
    (w w1 w2 : World) (es : list exn) (s : string) (wire : list wire_event) :
  well_formed mgr →
  models mgr = pre ++ m :: post →
  all_fail rq pre w = Some (w1, es) →
  enabled m = true →
  call_adapter rq m w1 = Some (inl (PStr s), w2, wire) →
  ∃ mgr' tr pre',
    generate rq mgr w = (Returned (normalized fix_text rq s), mgr', w2, tr) ∧
    (∀ a, a ∈ pre → enabled a = true →
          ∃ c, model_stats mgr !! provider a = Some c ∧
               model_stats mgr' !! provider a
                 = Some {| success := success c; failures := S (failures c) |}) ∧
    (∃ c, model_stats mgr !! provider m = Some c ∧
          model_stats mgr' !! provider m
            = Some {| success := S (success c); failures := failures c |}) ∧
    (∀ b, b ∈ post → model_stats mgr' !! provider b = model_stats mgr !! provider b) ∧
    models mgr' = pre' ++ m :: post ∧ length pre' = length pre ∧
    (∀ i, i ∈ tr → inv_index i ≤ length pre)%nat.
Proof.
  intros [Hcover Hnd] Hms Hall Hen Hcall. unfold generate.
  set (f0 := {| stats := model_stats mgr; world := w; attempted_models := [];
                last_error := None; trace := [] |}).
  rewrite Hms in Hcover, Hnd |- *.
  rewrite fmap_app, fmap_cons in Hnd.
  apply NoDup_app in Hnd as (Hnd_pre & Hdisj & Hnd_post).
  apply NoDup_cons in Hnd_post as [Hm_post Hnd_post].
  assert (Hcover_pre : stats_cover pre (stats f0)).
  { intros a Ha. apply Hcover. apply elem_of_app. by left. }
  destruct (loop_all_fail rq pre 0 f0 w1 es Hall Hcover_pre Hnd_pre) as
    (pre' & f1 & Hloop & Hlen & Hw & _ & _ & _ & Hbump & Hsame & new & Htr & Hnew).
  rewrite (loop_app rq pre (m :: post) 0 f0 f1 pre' Hloop). simpl.
  assert (Hm_pre : ∀ a, a ∈ pre → provider a ≠ provider m).
  { intros a Ha Heq. apply (Hdisj (provider a)).
    - apply list_elem_of_fmap. eauto.
    - rewrite Heq. by left. }
  destruct (Hcover m) as [c Hc]; [apply elem_of_app; right; by left|].
  assert (Hc1 : stats f1 !! provider m = Some c).
  { rewrite Hsame; [exact Hc|]. intros a Ha _. by apply Hm_pre. }
  rewrite <- Hw in Hcall.
  rewrite (attempt_returns_text rq (length pre) m f1 s w2 wire c Hen Hcall Hc1).
  exists {| models := pre' ++ m :: post;
            model_stats := <[provider m := succeeded_once c]> (stats f1) |},
         (trace f1 ++ [{| inv_index := length pre; inv_provider := provider m;
                          inv_wire := wire; inv_result := inl (PStr s);
                          inv_handled := None |}]), pre'.
  simpl. split; [done|]. split; [|split; [|split; [|split; [done|split; [done|]]]]].
  - intros a Ha Hena.
    destruct (Hcover a) as [ca Hca]; [apply elem_of_app; by left|].
    exists ca. split; [exact Hca|].
    rewrite lookup_insert_ne; [|by apply not_eq_sym, Hm_pre].
    rewrite (Hbump a Ha Hena). simpl. by rewrite Hca.
  - exists c. split; [exact Hc|]. by rewrite lookup_insert_eq.
  - intros b Hb.
    assert (Hbm : provider m ≠ provider b).
    { intros Heq. apply Hm_post. rewrite Heq. apply list_elem_of_fmap. eauto. }
    rewrite lookup_insert_ne; [|done].
    apply Hsame. intros a Ha _ Heq. apply (Hdisj (provider a)).
    + apply list_elem_of_fmap. eauto.
    + rewrite Heq. right. apply list_elem_of_fmap. eauto.
  - intros i Hi. rewrite Htr in Hi. simpl in Hi.
    apply elem_of_app in Hi as [Hi|Hi].
    + rewrite Forall_forall in Hnew. specialize (Hnew i Hi). lia.
    + apply list_elem_of_singleton in Hi. subst i. simpl. lia.
Qed.

Lemma flag_steps_providers (ms ms' : list model_info) :
  Forall2 flag_step ms ms' → provider <$> ms' = provider <$> ms.
Proof.
  induction 1 as [|m m' ms ms' Hstep _ IH]; [done|].
  rewrite !fmap_cons, IH. by rewrite (flag_step_provider _ _ Hstep).
Qed.

(** [generate] keeps the registry well formed. *)
Lemma generate_well_formed rq mgr (w w' : World) o mgr' tr :
  well_formed mgr →
  generate rq mgr w = (o, mgr', w', tr) →
  well_formed mgr'.
Proof.
  intros [Hcover Hnd] Hgen.
  destruct (generate_inv _ _ _ _ _ _ _ Hcover Hgen) as (_ & Hflags & Hcover' & _).
  split; [done|]. by rewrite (flag_steps_providers _ _ Hflags).
Qed.

(** C2. Once a call has handled an exception of a provider that reads
    as "unavailable" (its lowercased text contains 410, gone, 404 or
    all hugging face models failed), the registry entry of that provider
    is disabled after the call, and in every later sequence of calls on
    the same manager no call invokes the adapter of that entry; the
    entry is still disabled at the end. *)
Theorem unavailable_is_sticky (rq : request) (mgr mgr1 : manager) (w w1 : World)
    (o : outcome) (tr1 : list invocation) (i : invocation) (e : exn) :
  stats_cover (models mgr) (model_stats mgr) →
  generate rq mgr w = (o, mgr1, w1, tr1) →
  i ∈ tr1 →
  inv_handled i = Some e →
  is_model_unavailable (Str.lower (str_exn e)) = true →
  (∃ m1, models mgr1 !! inv_index i = Some m1 ∧ enabled m1 = false) ∧
  ∀ rqs os mgr2 w2 tr2,
    generate_all rqs mgr1 w1 = (os, mgr2, w2, tr2) →
    (∀ j, j ∈ tr2 → inv_index j ≠ inv_index i) ∧
    ∃ m2, models mgr2 !! inv_index i = Some m2 ∧ enabled m2 = false.
Proof.
  intros Hcover Hgen Hi He Hun.
  destruct (generate_inv _ _ _ _ _ _ _ Hcover Hgen) as (_ & _ & Hcover1 & _ & Hdis & _).
  destruct (Hdis i e Hi He) as (m1 & Hm1 & Hen1); [by apply classify_unavailable|].
  split; [by exists m1|].
  intros rqs os mgr2 w2 tr2 Hall.
  destruct (generate_all_inv rqs _ _ _ _ _ _ Hcover1 Hall) as (Hflags & _ & Htr & _).
  split.
  - intros j Hj Heq. rewrite Forall_forall in Htr.
    destruct (Htr j Hj) as (m & Hm & Hen & _). rewrite Heq in Hm. congruence.
  - destruct (Forall2_lookup_l _ _ _ _ _ Hflags Hm1) as (m2 & Hm2 & Hstep).
    exists m2. split; [done|]. by eapply flag_step_disabled.
Qed.

(** C9. An exception whose lowercased text carries both an "unavailable"
    signal and a "retryable" signal is classified as permanently
    unavailable. The pass of the loop that handles it leaves the entry
    with [enabled] false; so after a call of [generate] that handled it
    the entry of that provider is disabled, and no later call on the same
    manager invokes that entry. *)
Theorem unavailable_takes_precedence (e : exn) :
  is_model_unavailable (Str.lower (str_exn e)) = true →
  is_retryable (Str.lower (str_exn e)) = true →
  classify e = PermanentlyUnavailable ∧
  (∀ rq idx m (f : frame World) w1 wire c,
     enabled m = true →
     call_adapter rq m (world f) = Some (inr e, w1, wire) →
     stats f !! provider m = Some c →
     ∃ m' f', attempt rq idx m f = StepNext m' f' ∧
              enabled m' = false ∧
              name m' = name m ∧ provider m' = provider m ∧
              last_error f' = Some e) ∧
  ∀ rq mgr mgr1 (w w1 : World) o tr1 i,
    stats_cover (models mgr) (model_stats mgr) →
    generate rq mgr w = (o, mgr1, w1, tr1) →
    i ∈ tr1 →
    inv_handled i = Some e →
    (∃ m1, models mgr1 !! inv_index i = Some m1 ∧ enabled m1 = false) ∧
    ∀ rqs os mgr2 w2 tr2,
      generate_all rqs mgr1 w1 = (os, mgr2, w2, tr2) →
      (∀ j, j ∈ tr2 → inv_index j ≠ inv_index i) ∧
      ∃ m2, models mgr2 !! inv_index i = Some m2 ∧ enabled m2 = false.
Proof.
  intros Hun _.
  assert (Hcl : classify e = PermanentlyUnavailable) by by apply classify_unavailable.
  split; [done|]. split.
  - intros rq idx m f w1 wire c Hen Hcall Hc.
    rewrite (attempt_raises rq idx m f e w1 wire c Hen Hcall Hc), Hcl.
    eexists _, _. split; [reflexivity|]. by destruct m.
  - intros rq mgr mgr1 w w1 o tr1 i Hcover Hgen Hi He.
    destruct (generate_inv _ _ _ _ _ _ _ Hcover Hgen) as (_ & _ & Hcover1 & _ & Hdis & _).
    destruct (Hdis i e Hi He Hcl) as (m1 & Hm1 & Hen1).
    split; [by exists m1|].
    intros rqs os mgr2 w2 tr2 Hall.
    destruct (generate_all_inv rqs _ _ _ _ _ _ Hcover1 Hall) as (Hflags & _ & Htr & _).
    split.
    + intros j Hj Heq. rewrite Forall_forall in Htr.
      destruct (Htr j Hj) as (m & Hm & Hen & _). rewrite Heq in Hm. congruence.
    + destruct (Forall2_lookup_l _ _ _ _ _ Hflags Hm1) as (m2 & Hm2 & Hstep).
      exists m2. split; [done|]. by eapply flag_step_disabled.
Qed.

(** C8. A provider whose exception is neither "unavailable" nor
    "retryable" does not end the call: with the enabled providers ahead
    of it failing, and a provider behind it returning a text after the
    enabled ones in between have failed, [generate] returns that text;
    the failing provider has one more failure, the same successes, and
    its registry entry is unchanged, so it is still enabled. *)
Theorem fatal_error_advances (rq : request) (mgr : manager)
    (pre mid post : list model_info) (m m2 : model_info)
    (w w0 w1 w2 w3 : World) (es0 es1 : list exn) (e : exn) (s : string)
    (wire wire2 : list wire_event) :
  well_formed mgr →
  models mgr = pre ++ m :: mid ++ m2 :: post →
  all_fail rq pre w = Some (w0, es0) →
  enabled m = true →
  call_adapter rq m w0 = Some (inr e, w1, wire) →
  classify e = Fatal →
  all_fail rq mid w1 = Some (w2, es1) →
  enabled m2 = true →
  call_adapter rq m2 w2 = Some (inl (PStr s), w3, wire2) →
  ∃ mgr' tr,
    generate rq mgr w = (Returned (normalized fix_text rq s), mgr', w3, tr) ∧
    models mgr' !! length pre = Some m ∧
    (∃ c, model_stats mgr !! provider m = Some c ∧
          model_stats mgr' !! provider m
            = Some {| success := success c; failures := S (failures c) |}) ∧
    ∃ i, i ∈ tr ∧ inv_index i = length pre ∧ inv_handled i = Some e.
Proof.
  intros [Hcover Hnd] Hms Hpre Hen Hcall Hfatal Hmid Hen2 Hcall2. unfold generate.
  set (f0 := {| stats := model_stats mgr; world := w; attempted_models := [];
                last_error := None; trace := [] |}).
  rewrite Hms in Hcover, Hnd |- *.
  rewrite fmap_app, fmap_cons, fmap_app, fmap_cons in Hnd.
  apply NoDup_app in Hnd as (Hnd_pre & Hdisj & Hnd).
  apply NoDup_cons in Hnd as [Hm_rest Hnd].
  apply NoDup_app in Hnd as (Hnd_mid & Hdisj2 & _).
  assert (Hm_pre : ∀ a, a ∈ pre → provider a ≠ provider m).
  { intros a Ha Heq. apply (Hdisj (provider a)).
    - apply list_elem_of_fmap. eauto.
    - rewrite Heq. by left. }
  assert (Hm_mid : ∀ a, a ∈ mid → provider a ≠ provider m).
  { intros a Ha Heq. apply Hm_rest. rewrite <- Heq.
    apply elem_of_app. left. apply list_elem_of_fmap. eauto. }
  assert (Hm_m2 : provider m2 ≠ provider m).
  { intros Heq. apply Hm_rest. rewrite <- Heq. apply elem_of_app. right. by left. }
  assert (Hm2_pre : ∀ a, a ∈ pre → provider a ≠ provider m2).
  { intros a Ha Heq. apply (Hdisj (provider a)).
    - apply list_elem_of_fmap. eauto.
    - rewrite Heq. right. apply elem_of_app. right. by left. }
  assert (Hm2_mid : ∀ a, a ∈ mid → provider a ≠ provider m2).
  { intros a Ha Heq. apply (Hdisj2 (provider a)).
    - apply list_elem_of_fmap. eauto.
    - rewrite Heq. by left. }
  (* the providers ahead of [m] *)
  destruct (loop_all_fail rq pre 0 f0 w0 es0 Hpre) as
    (pre' & f1 & Hloop1 & Hlen1 & Hw1 & _ & _ & _ & _ & Hsame1 & new1 & Htr1 & _);
    [|exact Hnd_pre|].
  { intros a Ha. apply Hcover. apply elem_of_app. by left. }
  rewrite (loop_app rq pre _ 0 f0 f1 pre' Hloop1).
  (* [m] itself *)
  destruct (Hcover m) as [c Hc]; [apply elem_of_app; right; by left|].
  assert (Hc1 : stats f1 !! provider m = Some c).
  { rewrite Hsame1; [exact Hc|]. intros a Ha _. by apply Hm_pre. }
  rewrite <- Hw1 in Hcall.
  cbn [generate_loop].
  rewrite (attempt_raises rq (0 + length pre) m f1 e w1 wire c Hen Hcall Hc1), Hfatal.
  set (f2 := {| stats := <[provider m := failed_once c]> (stats f1); world := w1;
                attempted_models := attempted_models f1 ++ [name m];
                last_error := Some e;
                trace := trace f1 ++ [{| inv_index := (0 + length pre)%nat;
                                         inv_provider := provider m;
                                         inv_wire := wire; inv_result := inr e;
                                         inv_handled := Some e |}] |}).
  (* the providers between [m] and [m2] *)
  destruct (loop_all_fail rq mid (S (0 + length pre)) f2 w2 es1 Hmid) as
    (mid' & f3 & Hloop3 & Hlen3 & Hw3 & _ & _ & _ & _ & Hsame3 & new3 & Htr3 & _);
    [|exact Hnd_mid|].
  { intros a Ha. apply insert_keeps_keys.
    rewrite Hsame1; [|intros a' Ha' _ Heq; apply (Hdisj (provider a'));
                      [apply list_elem_of_fmap; eauto|
                       rewrite Heq; right; apply elem_of_app; left;
                       apply list_elem_of_fmap; eauto]].
    apply Hcover. apply elem_of_app. right. right. apply elem_of_app. by left. }
  rewrite (loop_app rq mid _ _ f2 f3 mid' Hloop3).
  (* [m2] *)
  destruct (Hcover m2) as [c2 Hc2];
    [apply elem_of_app; right; right; apply elem_of_app; right; by left|].
  assert (Hc3 : stats f3 !! provider m2 = Some c2).
  { rewrite Hsame3; [|intros a Ha _; by apply Hm2_mid].
    simpl. rewrite lookup_insert_ne; [|by apply not_eq_sym].
    rewrite Hsame1; [exact Hc2|]. intros a Ha _. by apply Hm2_pre. }
  rewrite <- Hw3 in Hcall2.
  cbn [generate_loop].
  rewrite (attempt_returns_text rq _ m2 f3 s w3 wire2 c2 Hen2 Hcall2 Hc3).
  eexists _, _. split; [reflexivity|]. simpl.
  split; [|split].
  - rewrite lookup_app_r by lia. by rewrite Hlen1, Nat.sub_diag.
  - exists c. split; [exact Hc|].
    rewrite lookup_insert_ne by done.
    rewrite Hsame3; [|intros a Ha _; by apply Hm_mid].
    simpl. by rewrite lookup_insert_eq.
  - exists {| inv_index := (0 + length pre)%nat; inv_provider := provider m;
              inv_wire := wire; inv_result := inr e; inv_handled := Some e |}.
    split; [|split; [simpl; lia|reflexivity]].
    rewrite Htr3. simpl. apply elem_of_app. left. apply elem_of_app. left.
    apply elem_of_app. right. by left.
Qed.

End Facts.

(** ** The registry that [_initialize_models] builds *)

Lemma entries_well_formed (ms : list model_info) (s : gmap string counts) :
  Forall (λ m, is_Some (s !! provider m)) ms →
  NoDup (provider <$> ms) →
  well_formed {| models := ms; model_stats := s |}.
Proof.
  intros Hall Hnd. split; [|done].
  intros m Hm. rewrite Forall_forall in Hall. by apply Hall.
Qed.

Lemma NoDup_by_decision (l : list string) : bool_decide (NoDup l) = true → NoDup l.
Proof. intros H. by apply bool_decide_eq_true in H. Qed.

Lemma initialize_models_well_formed (env : environment) :
  well_formed (initialize_models env).
Proof.
  unfold initialize_models.
  destruct (key_set (GROQ_API_KEY env)), (GROQ_AVAILABLE env && groq_client_ok env),
    (key_set (HUGGINGFACE_API_KEY env)), (HF_AVAILABLE env),
    (key_set (GOOGLE_API_KEY env)), (key_set (GEMINI_API_KEY env)),
    (GEMINI_AVAILABLE env && gemini_configure_ok env);
    cbn [models model_stats app];
    (apply entries_well_formed;
     [ repeat (constructor; [cbn [provider groq_entry huggingface_entry gemini_entry];
                             by simplify_map_eq|]); constructor
     | apply NoDup_by_decision; reflexivity ]).
Qed.

(** ** The theorems at work on scripted worlds *)

Lemma generate_first_success_witness :
  let rq := Script.say "What is the capital of France?" in
  let mgr := initialize_models Script.env3 in
  let w := [Script.Groq (inr (PyError "RateLimitError" "Error code: 429 - rate limit reached"));
            Script.ok 200 (PList [PDict [("generated_text",
                                          PStr "Paris is the capital of France.")]])] in
  ∃ mgr' tr pre',
    Script.generate rq mgr w
      = (Returned (PStr "Paris is the capital of France."), mgr', [], tr) ∧
    (∀ a, a ∈ [groq_entry] → enabled a = true →
          ∃ c, model_stats mgr !! provider a = Some c ∧
               model_stats mgr' !! provider a
                 = Some {| success := success c; failures := S (failures c) |}) ∧
    (∃ c, model_stats mgr !! "huggingface" = Some c ∧
          model_stats mgr' !! "huggingface"
            = Some {| success := S (success c); failures := failures c |}) ∧
    (∀ b, b ∈ [gemini_entry "g"] →
          model_stats mgr' !! provider b = model_stats mgr !! provider b) ∧
    models mgr' = pre' ++ huggingface_entry "hf" :: [gemini_entry "g"] ∧
    length pre' = 1%nat ∧
    (∀ i, i ∈ tr → inv_index i ≤ 1)%nat.
Proof.
  intros rq mgr w.
  refine (generate_first_success Script.groq_chat Script.requests_post
            Script.gemini_generate Script.fix_text rq mgr
            [groq_entry] [gemini_entry "g"] (huggingface_entry "hf") w (tl w) []
            [PyError "RateLimitError" "Error code: 429 - rate limit reached"]
            "Paris is the capital of France."
            [Posted (hf_request "hf" (messages_to_prompt (messages rq)) rq 45
                       "mistralai/Mistral-7B-Instruct-v0.3")]
            _ _ _ _ _).
  - apply initialize_models_well_formed.
  - reflexivity.
  - vm_compute. reflexivity.
  - reflexivity.
  - vm_compute. reflexivity.
Defined.

Lemma generate_exhausted_witness :
  let rq := Script.say "What is the capital of France?" in
  let mgr := initialize_models Script.env3 in
  let slow := Script.Http (inr (PyError "ReadTimeout" "Read timed out. (read timeout=45)")) in
  let w := [Script.Groq (inr (PyError "RateLimitError" "Error code: 429 - rate limit reached"));
            slow; slow; slow; slow;
            Script.Gemini (inr (PyError "ServiceUnavailable" "503 Service Unavailable"))] in
  ∃ mgr' tr,
    Script.generate rq mgr w =
      (AllFailed ["Groq Llama 3.3 70B"; "Hugging Face Mistral 7B"; "Google Gemini Pro"]
         (Some (PyError "ServiceUnavailable" "503 Service Unavailable")) (model_stats mgr'),
       mgr', [], tr) ∧
    length (name <$> List.filter enabled (models mgr)) = 3%nat ∧
    3%nat = length (List.filter enabled (models mgr)).
Proof.
  intros rq mgr slow w.
  apply (generate_exhausted Script.groq_chat Script.requests_post
           Script.gemini_generate Script.fix_text rq mgr w []
           [PyError "RateLimitError" "Error code: 429 - rate limit reached";
            PyError "ReadTimeout" "Read timed out. (read timeout=45)";
            PyError "ServiceUnavailable" "503 Service Unavailable"]).
  - apply initialize_models_well_formed.
  - vm_compute. reflexivity.
Defined.

Lemma fatal_error_advances_witness :
  let rq := Script.say "What is the capital of France?" in
  let mgr := initialize_models Script.env3 in
  let denied := PyError "AuthenticationError" "Error code: 401 - invalid api key" in
  let w := [Script.Groq (inr denied);
            Script.ok 200 (PList [PDict [("generated_text",
                                          PStr "Paris is the capital of France.")]])] in
  ∃ mgr' tr,
    Script.generate rq mgr w
      = (Returned (PStr "Paris is the capital of France."), mgr', [], tr) ∧
    models mgr' !! 0%nat = Some groq_entry ∧
    (∃ c, model_stats mgr !! "groq" = Some c ∧
          model_stats mgr' !! "groq"
            = Some {| success := success c; failures := S (failures c) |}) ∧
    ∃ i, i ∈ tr ∧ inv_index i = 0%nat ∧ inv_handled i = Some denied.
Proof.
  intros rq mgr denied w.
  refine (fatal_error_advances Script.groq_chat Script.requests_post
            Script.gemini_generate Script.fix_text rq mgr
            [] [] [gemini_entry "g"] groq_entry (huggingface_entry "hf")
            w w (tl w) (tl w) [] [] [] denied "Paris is the capital of France."
            []
            [Posted (hf_request "hf" (messages_to_prompt (messages rq)) rq 45
                       "mistralai/Mistral-7B-Instruct-v0.3")]
            _ _ _ _ _ _ _ _ _).
  - apply initialize_models_well_formed.
  - reflexivity.
  - reflexivity.
  - reflexivity.
  - vm_compute. reflexivity.
  - vm_compute. reflexivity.
  - reflexivity.
  - reflexivity.
  - vm_compute. reflexivity.
Defined.

Lemma unavailable_takes_precedence_witness :
  let e := PyError "APIStatusError" "Error code: 410 Gone - connection closed by peer" in
  let rq := Script.say "What is the capital of France?" in
  let run := Script.generate rq (initialize_models Script.env3) [Script.Groq (inr e)] in
  classify e = PermanentlyUnavailable ∧
  (∃ m1, models run.1.1.2 !! 0%nat = Some m1 ∧ enabled m1 = false) ∧
  ∀ rqs os mgr2 w2 tr2,
    Script.generate_all rqs run.1.1.2 run.1.2 = (os, mgr2, w2, tr2) →
    (∀ j, j ∈ tr2 → inv_index j ≠ 0%nat) ∧
    ∃ m2, models mgr2 !! 0%nat = Some m2 ∧ enabled m2 = false.
Proof.
  intros e rq run.
  pose (i := {| inv_index := 0; inv_provider := "groq"; inv_wire := [];
                inv_result := inr e; inv_handled := Some e |}).
  destruct (unavailable_takes_precedence Script.groq_chat Script.requests_post
              Script.gemini_generate Script.fix_text e) as (Hcl & _ & Hlater).
  - vm_compute. reflexivity.
  - vm_compute. reflexivity.
  - split; [exact Hcl|].
    refine (Hlater rq (initialize_models Script.env3) run.1.1.2
              [Script.Groq (inr e)] run.1.2 run.1.1.1 run.2 i _ _ _ _).
    + apply initialize_models_well_formed.
    + vm_compute. reflexivity.
    + vm_compute. left.
    + reflexivity.
Defined.

Lemma huggingface_fallback_order_witness :
  let rq := Script.say "What is the capital of France?" in
  let m := huggingface_entry "hf" in
  let gone := Script.status 410 "Gone" in
  let post := λ id,
    {| api_url := "https://api-inference.huggingface.co/models/" +:+ id;
       authorization := "Bearer hf";
       json := {| inputs := messages_to_prompt (messages rq);
                  temperature := 7 # 10; max_new_tokens := 1024;
                  return_full_text := false |};
       post_timeout := 45 |} in
  Script.generate_with_huggingface m rq [gone; gone; gone; gone]
    = (inr (PyError "Exception"
              ("All Hugging Face models failed. Last error: " +:+
               "Model google/flan-t5-large is no longer available (410 Gone)")),
       [], (λ id, Posted (post id)) <$> hf_models).
Proof.
  intros rq m gone post.
  assert (Hkey : api_key m = Some "hf") by reflexivity.
  assert (Hnd : NoDup (models_to_try m)).
  { apply NoDup_by_decision. reflexivity. }
  destruct (huggingface_fallback_order Script.requests_post m rq "hf"
              [gone; gone; gone; gone] Hkey Hnd) as [Hpass _].
  assert (Hids : models_to_try m = hf_models ++ []) by reflexivity.
  assert (Hgone : answers_gone Script.requests_post (post <$> hf_models)
                    [gone; gone; gone; gone] = Some []) by reflexivity.
  destruct (Hpass hf_models [] [] Hids Hgone)
    as (r & w' & ev' & _ & Hrun & Hr & Hw & Hev).
  rewrite Hr, Hw, Hev in Hrun. exact Hrun.
Defined.

Lemma unavailable_is_sticky_witness :
  let rq := Script.say "What is the capital of France?" in
  let mgr := initialize_models Script.env1 in
  let gone := Script.status 410 "Gone" in
  let run := Script.generate rq mgr [gone; gone; gone; gone] in
  (∃ m1, models run.1.1.2 !! 0%nat = Some m1 ∧ enabled m1 = false) ∧
  ∀ rqs os mgr2 w2 tr2,
    Script.generate_all rqs run.1.1.2 run.1.2 = (os, mgr2, w2, tr2) →
    (∀ j, j ∈ tr2 → inv_index j ≠ 0%nat) ∧
    ∃ m2, models mgr2 !! 0%nat = Some m2 ∧ enabled m2 = false.
Proof.
  intros rq mgr gone run.
  pose (e := PyError "Exception"
               (all_failed_message (Some (gone_message "google/flan-t5-large")))).
  pose (i := {| inv_index := 0; inv_provider := "huggingface";
                inv_wire := (Script.generate_with_huggingface
                               (huggingface_entry "hf") rq [gone; gone; gone; gone]).2;
                inv_result := inr e; inv_handled := Some e |}).
  apply (unavailable_is_sticky Script.groq_chat Script.requests_post
           Script.gemini_generate Script.fix_text rq mgr run.1.1.2
           [gone; gone; gone; gone] run.1.2 run.1.1.1 run.2 i e).
  - apply initialize_models_well_formed.
  - vm_compute. reflexivity.
  - vm_compute. left.
  - reflexivity.
  - vm_compute. reflexivity.
Defined.

(** ** Where the code departs from its specification *)

(** C4. With [fix_typos] set, the Hugging Face adapter returns the JSON
    number 5 as its generated text; [fix_llm_response] raises on it (its
    sibling [fix_common_typos] would have handed it back unchanged), and
    [generate] treats the exception as a failure of the provider: it adds
    a failure next to the success already counted, goes on to Gemini and
    returns Gemini's text instead of the value Hugging Face returned. *)
Theorem normalizer_failure_fails_the_provider :
  let rq := Script.say "What is the capital of France?" in
  let w := [Script.ok 200 (PList [PDict [("generated_text", PInt 5)]]);
            Script.Gemini (inl (PStr "Paris."))] in
  let run := Script.generate rq (initialize_models Script.env2) w in
  fix_typos rq = true ∧
  fix_llm_response Script.fix_text (PInt 5) = inr (attribute_error (PInt 5) "replace") ∧
  fix_common_typos_guard (PInt 5) = Some (PInt 5) ∧
  run.1.1.1 = Returned (PStr "Paris.") ∧
  inv_provider <$> run.2 = ["huggingface"; "gemini"] ∧
  inv_result <$> run.2 = [inl (PInt 5); inl (PStr "Paris.")] ∧
  inv_handled <$> run.2 = [Some (attribute_error (PInt 5) "replace"); None] ∧
  model_stats run.1.1.2 !! "huggingface" = Some {| success := 1; failures := 1 |}.
Proof. vm_compute. repeat split; reflexivity. Qed.

(** C5. On a registry with Hugging Face alone, one call in which the
    adapter is invoked once and returns the JSON number 5 leaves the
    provider with one success and one failure: [success + failures] is 2
    after a single invocation. *)
Theorem counters_exceed_invocations :
  let rq := Script.say "What is the capital of France?" in
  let w := [Script.ok 200 (PList [PDict [("generated_text", PInt 5)]])] in
  let run := Script.generate rq (initialize_models Script.env1) w in
  total (model_stats (initialize_models Script.env1)) "huggingface" = 0%nat ∧
  invocations "huggingface" run.2 = 1%nat ∧
  returned_then_failed "huggingface" run.2 = 1%nat ∧
  model_stats run.1.1.2 !! "huggingface" = Some {| success := 1; failures := 1 |} ∧
  total (model_stats run.1.1.2) "huggingface" = 2%nat.
Proof. vm_compute. repeat split; reflexivity. Qed.

(** C6. The first POST answers 200 with an error body that says the model
    is loading; the adapter sleeps five seconds and POSTs once more; the
    second answer is the same loading body. The adapter then returns the
    empty string as a successful result, and [generate] counts a success
    and returns it. *)
Theorem still_loading_is_returned_as_success :
  let rq := Script.say "What is the capital of France?" in
  let loading :=
    Script.ok 200 (PDict [("error",
      PStr "Model mistralai/Mistral-7B-Instruct-v0.3 is currently loading")]) in
  let post :=
    Posted (hf_request "hf" (messages_to_prompt (messages rq)) rq 45
              "mistralai/Mistral-7B-Instruct-v0.3") in
  let run := Script.generate rq (initialize_models Script.env1) [loading; loading] in
  Script.generate_with_huggingface (huggingface_entry "hf") rq [loading; loading]
    = (inl (PStr ""), [], [post; Slept 5; post]) ∧
  run.1.1.1 = Returned (PStr "") ∧
  model_stats run.1.1.2 !! "huggingface" = Some {| success := 1; failures := 0 |}.
Proof. vm_compute. repeat split; reflexivity. Qed.

(** Scenario 2 of the specification: a registry with one provider that is
    gone. The first call is exhausted after attempting it; the second call
    on the same manager attempts nothing and invokes nothing. *)
Example gone_then_skipped :
  let rq := Script.say "What is the capital of France?" in
  let gone := Script.status 410 "Gone" in
  let first := Script.generate rq (initialize_models Script.env1) [gone; gone; gone; gone] in
  let second := Script.generate rq first.1.1.2 [Script.ok 200 (PDict [("generated_text", PStr "Paris.")])] in
  (∃ e s, first.1.1.1 = AllFailed ["Hugging Face Mistral 7B"] (Some e) s) ∧
  (∃ s, second.1.1.1 = AllFailed [] None s) ∧
  second.2 = [].
Proof. vm_compute. repeat split; eauto. Qed.

(** * Further properties of the manager *)

Section MoreFacts.

Context {World : Type}.
Variable groq_chat :
  string -> list message -> Q -> Z -> Z -> World -> (pyval + exn) * World.
Variable requests_post : http_request -> World -> (response + exn) * World.
Variable gemini_generate :
  string -> string -> string -> Q -> Z -> World -> (pyval + exn) * World.
Variable fix_text : string -> string.

Local Abbreviation hf_try := (hf_try requests_post).
Local Abbreviation hf_iter := (hf_iter requests_post).
Local Abbreviation hf_loop := (hf_loop requests_post).
Local Abbreviation generate_with_huggingface := (generate_with_huggingface requests_post).
Local Abbreviation call_adapter := (call_adapter groq_chat requests_post gemini_generate).
Local Abbreviation attempt := (attempt groq_chat requests_post gemini_generate fix_text).
Local Abbreviation generate_loop := (generate_loop groq_chat requests_post gemini_generate fix_text).
Local Abbreviation generate := (generate groq_chat requests_post gemini_generate fix_text).
Local Abbreviation generate_all := (generate_all groq_chat requests_post gemini_generate fix_text).

(** What one attempt writes to the local state of the call. *)
Lemma attempt_log rq idx m (f : frame World) :
  is_Some (stats f !! provider m) →
  ∃ f' new,
    ((∃ v raw i,
        attempt rq idx m f = StepReturn v f' ∧ new = [i] ∧
        inv_result i = inl raw ∧ inv_handled i = None ∧
        (if fix_typos rq && truthy raw
         then fix_llm_response fix_text raw else inl raw) = inl v) ∨
     (∃ m',
        attempt rq idx m f = StepNext m' f' ∧
        Forall (λ i, inv_index i = idx ∧ is_Some (inv_handled i)) new ∧
        last_error f' = match last (omap inv_handled new) with
                        | Some e => Some e
                        | None => last_error f
                        end ∧
        (m' = m ∨
         m' = disable m ∧
         ∃ i e, i ∈ new ∧ inv_handled i = Some e ∧
                classify e = PermanentlyUnavailable))) ∧
    trace f' = trace f ++ new ∧
    attempted_models f' = attempted_models f ++ (if enabled m then [name m] else []) ∧
    (∀ q, is_Some (stats f !! q) ↔ is_Some (stats f' !! q)).
Proof.
  intros [c Hc]. unfold attempt.
  assert (Hkeys : ∀ c' q, is_Some (stats f !! q) ↔
                          is_Some (<[provider m := c']> (stats f) !! q)).
  { intros c' q. destruct (decide (provider m = q)) as [<-|Hne].
    - rewrite lookup_insert_eq, Hc. split; eauto.
    - by rewrite lookup_insert_ne. }
  destruct (enabled m) eqn:Hen; simpl.
  2:{ exists f, []. rewrite !app_nil_r. split; [|done].
      right. exists m. split; [done|]. split; [constructor|]. split; [done|]. by left. }
  destruct (call_adapter rq m (world f)) as [[[r w1] wire]|] eqn:Hcall.
  2:{ eexists _, []. split.
      { right. exists m. split; [done|]. split; [constructor|]. split; [done|]. by left. }
      simpl. by rewrite !app_nil_r. }
  pose (entry := λ r h, {| inv_index := idx; inv_provider := provider m;
                           inv_wire := wire; inv_result := r; inv_handled := h |}).
  assert (Hfail : ∀ (r0 : pyval + exn) e,
    let m' := match classify e with PermanentlyUnavailable => disable m | _ => m end in
    Forall (λ i, inv_index i = idx ∧ is_Some (inv_handled i)) [entry r0 (Some e)] ∧
    Some e = match last (omap inv_handled [entry r0 (Some e)]) with
             | Some e0 => Some e0
             | None => last_error f
             end ∧
    (m' = m ∨ m' = disable m ∧
       ∃ i e0, i ∈ [entry r0 (Some e)] ∧ inv_handled i = Some e0 ∧
               classify e0 = PermanentlyUnavailable)).
  { intros r0 e m'. split; [repeat constructor; simpl; eauto|]. split; [done|].
    subst m'. destruct (classify e) eqn:Hcl; auto.
    right. split; [done|]. exists (entry r0 (Some e)), e. split; [by left|]. done. }
  destruct r as [raw|e].
  - unfold bump_success. rewrite Hc.
    destruct (if fix_typos rq && truthy raw then fix_llm_response fix_text raw else inl raw)
      as [v|e] eqn:Hfix.
    + eexists _, [entry (inl raw) None]. split.
      { left. exists v, raw, (entry (inl raw) None). done. }
      simpl. split; [done|]. split; [done|]. apply Hkeys.
    + unfold bump_failures. rewrite lookup_insert_eq.
      eexists _, [entry (inl raw) (Some e)]. split.
      { right. eexists. split; [done|]. apply (Hfail (inl raw) e). }
      simpl. split; [done|]. split; [done|].
      intros q. rewrite insert_insert_eq. apply Hkeys.
  - unfold bump_failures. rewrite Hc.
    eexists _, [entry (inr e) (Some e)]. split.
    { right. eexists. split; [done|]. apply (Hfail (inr e) e). }
    simpl. split; [done|]. split; [done|]. apply Hkeys.
Qed.

(** What a whole run of the loop writes. *)
Lemma loop_log rq (ms : list model_info) :
  ∀ idx (f : frame World) x ms' f',
    stats_cover ms (stats f) →
    generate_loop rq idx ms f = (x, ms', f') →
    ∃ new,
      trace f' = trace f ++ new ∧
      (∀ q, is_Some (stats f !! q) ↔ is_Some (stats f' !! q)) ∧
      (∀ k m m', ms !! k = Some m → ms' !! k = Some m' →
                 enabled m = true → enabled m' = false →
                 ∃ i e, i ∈ new ∧ inv_index i = (idx + k)%nat ∧
                        inv_handled i = Some e ∧
                        classify e = PermanentlyUnavailable) ∧
      match x with
      | LoopEnd =>
          attempted_models f' = attempted_models f ++ (name <$> List.filter enabled ms) ∧
          Forall (λ i, is_Some (inv_handled i)) new ∧
          last_error f' = match last (omap inv_handled new) with
                          | Some e => Some e
                          | None => last_error f
                          end
      | LoopReturn v =>
          ∃ earlier i raw,
            new = earlier ++ [i] ∧
            Forall (λ j, is_Some (inv_handled j)) earlier ∧
            inv_result i = inl raw ∧ inv_handled i = None ∧
            (if fix_typos rq && truthy raw
             then fix_llm_response fix_text raw else inl raw) = inl v
      | LoopUncaught _ => False
      end.
Proof.
  induction ms as [|m ms IH]; intros idx f x ms' f' Hcover H; simpl in H.
  - simplify_eq. exists []. rewrite !app_nil_r. split; [done|]. split; [done|].
    split; [|done]. intros k m m' Hk. by rewrite lookup_nil in Hk.
  - destruct (attempt_log rq idx m f) as
      (f1 & new1 & Hstep & Htr1 & Hatt1 & Hkeys1); [apply Hcover; by left|].
    destruct Hstep as [(v & raw & i & Hv & -> & Hres & Hh & Hfix)
                      |(m1 & Hnext & Hnew1 & Hlast1 & Hflag)].
    + rewrite Hv in H. simplify_eq. exists [i]. split; [done|]. split; [done|]. split.
      * intros k a a' Ha Ha' Hen Hdis. congruence.
      * exists [], i, raw. done.
    + rewrite Hnext in H.
      destruct (generate_loop rq (S idx) ms f1) as [[x2 ms2] f2] eqn:Hloop.
      simplify_eq.
      destruct (IH (S idx) f1 x ms2 f') as (new2 & Htr2 & Hkeys2 & Hdis2 & Hx);
        [|exact Hloop|].
      { intros a Ha. apply Hkeys1, Hcover. by right. }
      exists (new1 ++ new2). split; [by rewrite Htr2, Htr1, app_assoc|].
      split; [intros q; by rewrite Hkeys1, Hkeys2|]. split.
      * intros [|k] a a' Ha Ha' Hen Hdis; simpl in Ha, Ha'; simplify_eq.
        -- destruct Hflag as [->|(-> & j & e & Hj & He & Hcl)]; [congruence|].
           exists j, e. split; [apply elem_of_app; by left|].
           rewrite Forall_forall in Hnew1. destruct (Hnew1 j Hj) as [-> _].
           split; [lia|done].
        -- destruct (Hdis2 k a a' Ha Ha' Hen Hdis) as (j & e & Hj & Hidx & He & Hcl).
           exists j, e. split; [apply elem_of_app; by right|]. split; [lia|done].
      * assert (Hhandled1 : Forall (λ j, is_Some (inv_handled j)) new1).
        { eapply Forall_impl; [exact Hnew1|]. by intros j [_ ?]. }
        destruct x as [v|e|]; [|done|].
        -- destruct Hx as (earlier & i & raw & -> & Hearlier & Hres & Hh & Hfix).
           exists (new1 ++ earlier), i, raw. rewrite app_assoc.
           split; [done|]. split; [by apply Forall_app|done].
        -- destruct Hx as (Hatt2 & Hhandled2 & Hlast2).
           split; [|split; [by apply Forall_app|]].
           ++ rewrite Hatt2, Hatt1, <- app_assoc. simpl.
              by destruct (enabled m).
           ++ rewrite Hlast2, Hlast1, omap_app, last_app.
              by destruct (last (omap inv_handled new2)).
Qed.

(** Whenever [generate] raises the exhaustion error, the names it lists
    are those of the entries that were enabled when the call started, in
    registry order; the counters it reports are the manager's after the
    call; every adapter invocation of the call ended in the [except]
    clause; and the last error is the exception of the last invocation. *)
Theorem exhaustion_lists_enabled (rq : request) (mgr mgr' : manager) (w w' : World)
    (attempted : list string) (last_err : option exn) (snapshot : gmap string counts)
    (tr : list invocation) :
  stats_cover (models mgr) (model_stats mgr) →
  generate rq mgr w = (AllFailed attempted last_err snapshot, mgr', w', tr) →
  attempted = name <$> List.filter enabled (models mgr) ∧
  snapshot = model_stats mgr' ∧
  Forall (λ i, is_Some (inv_handled i)) tr ∧
  last_err = last (omap inv_handled tr).
Proof.
  intros Hcover. unfold generate.
  set (f0 := {| stats := model_stats mgr; world := w; attempted_models := [];
                last_error := None; trace := [] |}).
  destruct (generate_loop rq 0 (models mgr) f0) as [[x ms'] f'] eqn:Hloop.
  intros H.
  destruct (loop_log rq (models mgr) 0 f0 x ms' f' Hcover Hloop) as (new & Htr & _ & _ & Hx).
  simpl in Htr. subst new.
  destruct x as [v|e|]; simplify_eq.
  destruct Hx as (Hatt & Hhandled & Hlast). simpl in Hatt, Hlast.
  split; [done|]. split; [done|]. split; [done|].
  rewrite Hlast. by destruct (last (omap inv_handled (trace f'))).
Qed.

(** An entry that is enabled before a call of [generate] and disabled
    after it was invoked during the call, and the exception handled for
    that invocation carries one of the unavailability markers: nothing
    else switches a provider off. *)
Theorem disabled_only_when_unavailable (rq : request) (mgr mgr' : manager) (w w' : World)
    (o : outcome) (tr : list invocation) (k : nat) (m m' : model_info) :
  stats_cover (models mgr) (model_stats mgr) →
  generate rq mgr w = (o, mgr', w', tr) →
  models mgr !! k = Some m →
  enabled m = true →
  models mgr' !! k = Some m' →
  enabled m' = false →
  ∃ i e, i ∈ tr ∧ inv_index i = k ∧ inv_handled i = Some e ∧
         is_model_unavailable (Str.lower (str_exn e)) = true.
Proof.
  intros Hcover Hgen Hm Hen Hm' Hdis. unfold generate in Hgen.
  set (f0 := {| stats := model_stats mgr; world := w; attempted_models := [];
                last_error := None; trace := [] |}) in Hgen.
  destruct (generate_loop rq 0 (models mgr) f0) as [[x ms'] f'] eqn:Hloop.
  simplify_eq.
  destruct (loop_log rq (models mgr) 0 f0 x ms' f' Hcover Hloop)
    as (new & Htr & _ & Hflags & _).
  simpl in Htr. subst new. simpl in Hm'.
  destruct (Hflags k m m' Hm Hm' Hen Hdis) as (i & e & Hi & Hidx & He & Hcl).
  exists i, e. split; [done|]. split; [done|]. split; [done|].
  by apply classify_unavailable.
Qed.

(** Whenever [generate] returns a value, the last adapter invocation of
    the call returned, every invocation before it ended in the [except]
    clause, and the value is the last invocation's result after the typo
    pass the request asks for. *)
Theorem returned_value_is_first_success (rq : request) (mgr mgr' : manager) (w w' : World)
    (v : pyval) (tr : list invocation) :
  stats_cover (models mgr) (model_stats mgr) →
  generate rq mgr w = (Returned v, mgr', w', tr) →
  ∃ earlier i raw,
    tr = earlier ++ [i] ∧
    Forall (λ j, is_Some (inv_handled j)) earlier ∧
    inv_result i = inl raw ∧ inv_handled i = None ∧
    (if fix_typos rq && truthy raw then fix_llm_response fix_text raw else inl raw) = inl v.
Proof.
  intros Hcover. unfold generate.
  set (f0 := {| stats := model_stats mgr; world := w; attempted_models := [];
                last_error := None; trace := [] |}).
  destruct (generate_loop rq 0 (models mgr) f0) as [[x ms'] f'] eqn:Hloop.
  intros H.
  destruct (loop_log rq (models mgr) 0 f0 x ms' f' Hcover Hloop) as (new & Htr & _ & _ & Hx).
  simpl in Htr. subst new.
  destruct x as [v0|e|]; simplify_eq. exact Hx.
Qed.

(** A call neither adds a provider to the counters nor drops one. *)
Lemma generate_keeps_keys (rq : request) (mgr mgr' : manager) (w w' : World)
    (o : outcome) (tr : list invocation) (q : string) :
  stats_cover (models mgr) (model_stats mgr) →
  generate rq mgr w = (o, mgr', w', tr) →
  is_Some (model_stats mgr !! q) ↔ is_Some (model_stats mgr' !! q).
Proof.
  intros Hcover. unfold generate.
  set (f0 := {| stats := model_stats mgr; world := w; attempted_models := [];
                last_error := None; trace := [] |}).
  destruct (generate_loop rq 0 (models mgr) f0) as [[x ms'] f'] eqn:Hloop.
  intros H. simplify_eq.
  destruct (loop_log rq (models mgr) 0 f0 x ms' f' Hcover Hloop) as (new & _ & Hkeys & _).
  apply Hkeys.
Qed.

Lemma generate_all_keeps_keys (rqs : list request) (q : string) :
  ∀ mgr mgr' (w w' : World) os tr,
    stats_cover (models mgr) (model_stats mgr) →
    generate_all rqs mgr w = (os, mgr', w', tr) →
    is_Some (model_stats mgr !! q) ↔ is_Some (model_stats mgr' !! q).
Proof.
  induction rqs as [|rq rqs IH]; intros mgr mgr' w w' os tr Hcover H; simpl in H.
  - by simplify_eq.
  - destruct (generate rq mgr w) as [[[o mgr1] w1] tr1] eqn:Hgen.
    destruct (generate_all rqs mgr1 w1) as [[[os2 mgr2] w2] tr2] eqn:Hall.
    simplify_eq.
    destruct (generate_inv _ _ _ _ _ _ _ _ _ _ _ Hcover Hgen) as (_ & _ & Hcover1 & _).
    rewrite (generate_keeps_keys _ _ _ _ _ _ _ q Hcover Hgen).
    by apply (IH _ _ _ _ _ _ Hcover1 Hall).
Qed.

End MoreFacts.

Section MoreFacts2.

Context {World : Type}.
Variable groq_chat :
  string -> list message -> Q -> Z -> Z -> World -> (pyval + exn) * World.
Variable requests_post : http_request -> World -> (response + exn) * World.
Variable gemini_generate :
  string -> string -> string -> Q -> Z -> World -> (pyval + exn) * World.
Variable fix_text : string -> string.

Local Abbreviation hf_try := (hf_try requests_post).
Local Abbreviation hf_iter := (hf_iter requests_post).
Local Abbreviation hf_loop := (hf_loop requests_post).
Local Abbreviation generate_with_huggingface := (generate_with_huggingface requests_post).
Local Abbreviation call_adapter := (call_adapter groq_chat requests_post gemini_generate).
Local Abbreviation attempt := (attempt groq_chat requests_post gemini_generate fix_text).
Local Abbreviation generate_loop := (generate_loop groq_chat requests_post gemini_generate fix_text).
Local Abbreviation generate := (generate groq_chat requests_post gemini_generate fix_text).
Local Abbreviation generate_all := (generate_all groq_chat requests_post gemini_generate fix_text).

(** ** A registry with nothing enabled *)

Lemma loop_all_disabled rq (ms : list model_info) :
  Forall (λ m, enabled m = false) ms →
  ∀ idx (f : frame World), generate_loop rq idx ms f = (LoopEnd, ms, f).
Proof.
  induction 1 as [|m ms Hm _ IH]; intros idx f; simpl; [done|].
  unfold attempt. rewrite Hm. simpl. by rewrite IH.
Qed.

(** When every entry of the registry is disabled, [generate] raises the
    exhaustion error at once: nothing is attempted, no adapter is invoked,
    and the manager and the world are as before. *)
Theorem nothing_enabled_nothing_tried (rq : request) (mgr : manager) (w : World) :
  Forall (λ m, enabled m = false) (models mgr) →
  generate rq mgr w = (AllFailed [] None (model_stats mgr), mgr, w, []).
Proof.
  intros Hall. unfold generate. rewrite (loop_all_disabled rq _ Hall). simpl.
  by destruct mgr.
Qed.

(** ** The wire of the Hugging Face adapter *)

Lemma one_model_wire_counts (rq : http_request) (g : list wire_event) :
  one_model_wire rq g →
  (1 ≤ posts g ≤ 2)%nat ∧ 0 ≤ slept g ≤ 5 ∧
  Forall (λ e, e = Posted rq ∨ e = Slept 5) g.
Proof.
  intros [->| ->]; unfold posts, slept; simpl;
    (split; [lia|]); (split; [lia|]);
    repeat (constructor; [by auto|]); constructor.
Qed.

Lemma posts_app (a b : list wire_event) : posts (a ++ b) = (posts a + posts b)%nat.
Proof. unfold posts. by rewrite List.filter_app, length_app. Qed.

Lemma slept_app (a b : list wire_event) : slept (a ++ b) = slept a + slept b.
Proof.
  induction a as [|e a IH]; simpl; [done|]. unfold slept in *. simpl.
  destruct e; rewrite IH; lia.
Qed.

Lemma hf_loop_wire mk last (todo : list string) :
  ∀ le (w w' : World) r ev,
    hf_loop mk last todo le w = (r, w', ev) →
    (posts ev ≤ 2 * length todo)%nat ∧
    0 ≤ slept ev ≤ 5 * Z.of_nat (length todo) ∧
    Forall (λ e, (∃ id, id ∈ todo ∧ e = Posted (mk id)) ∨ e = Slept 5) ev.
Proof.
  induction todo as [|id todo IH]; intros le w w' r ev H; simpl in H.
  - simplify_eq. unfold posts, slept. simpl. split; [lia|]. split; [lia|constructor].
  - destruct (hf_iter mk last id w) as [[it w1] ev1] eqn:E.
    destruct (one_model_wire_counts _ _ (hf_iter_wire _ _ _ _ _ _ _ _ E))
      as (Hp & Hs & Hev).
    assert (Hev' : Forall (λ e, (∃ id0, id0 ∈ id :: todo ∧ e = Posted (mk id0)) ∨
                               e = Slept 5) ev1).
    { eapply Forall_impl; [exact Hev|]. simpl. intros e [->| ->]; [left|by right].
      exists id. split; [by left|done]. }
    assert (Hlen : Z.of_nat (length (id :: todo)) = 1 + Z.of_nat (length todo)).
    { simpl length. lia. }
    destruct it as [v|msg|e].
    + simplify_eq. split; [simpl; lia|]. split; [lia|done].
    + destruct (hf_loop mk last todo (Some msg) w1) as [[r2 w2] ev2] eqn:E2.
      simplify_eq. destruct (IH _ _ _ _ _ E2) as (Hp2 & Hs2 & Hev2).
      rewrite posts_app, slept_app. split; [simpl; lia|]. split; [lia|].
      apply Forall_app. split; [done|].
      eapply Forall_impl; [exact Hev2|]. simpl. intros e [(id0 & Hid & ->)| ->]; [left|by right].
      exists id0. split; [by right|done].
    + simplify_eq. split; [simpl; lia|]. split; [lia|done].
Qed.

(** Whatever the service answers, one invocation of the Hugging Face
    adapter makes at most two POSTs per model id it may try, sleeps at
    most five seconds per model id, and POSTs nothing but the request of
    the call to the declared model ids. *)
Theorem huggingface_wire_is_bounded (m : model_info) (rq : request) (w : World) :
  let ev := (generate_with_huggingface m rq w).2 in
  let n := length (models_to_try m) in
  (posts ev ≤ 2 * n)%nat ∧
  0 ≤ slept ev ≤ 5 * Z.of_nat n ∧
  Forall (λ e, (∃ id key, id ∈ models_to_try m ∧ api_key m = Some key ∧
                          e = Posted (hf_request key (messages_to_prompt (messages rq))
                                        rq (timeout m) id)) ∨
               e = Slept 5) ev.
Proof.
  intros ev n. subst ev n. unfold generate_with_huggingface.
  destruct (api_key m) as [key|] eqn:Hkey.
  - destruct (hf_loop _ _ (models_to_try m) None w) as [[r w'] ev] eqn:E.
    destruct (hf_loop_wire _ _ _ _ _ _ _ _ E) as (Hp & Hs & Hev). simpl.
    split; [done|]. split; [done|].
    eapply Forall_impl; [exact Hev|]. simpl. intros e [(id & Hid & ->)| ->]; [left|by right].
    by exists id, key.
  - unfold posts, slept. simpl. split; [lia|]. split; [lia|constructor].
Qed.

(** ** Every model id is gone *)

Lemma hf_loop_gone mk fin (todo : list string) :
  (∀ r w, ∃ resp w', requests_post r w = (inl resp, w') ∧
                     (status_code resp = 410 ∨ status_code resp = 404)) →
  ∀ le (w : World),
    ∃ w', hf_loop mk fin todo le w =
            (inr (PyError "Exception"
                    (all_failed_message
                       (match last todo with
                        | Some id => Some (gone_message id)
                        | None => le
                        end))),
             w', (λ id, Posted (mk id)) <$> todo).
Proof.
  intros Hgone. induction todo as [|id todo IH]; intros le w; simpl.
  - by exists w.
  - unfold hf_iter, hf_try.
    destruct (Hgone (mk id) w) as (resp & w1 & -> & Hst).
    assert ((status_code resp =? 410) || (status_code resp =? 404) = true) as ->.
    { destruct Hst as [->| ->]; reflexivity. }
    destruct (IH (Some (gone_message id)) w1) as (w' & ->).
    exists w'. simpl. repeat f_equal.
    destruct todo as [|id2 todo]; [done|]. rewrite last_cons_cons.
    by destruct (last (id2 :: todo)) eqn:Hl;
      [|apply last_None in Hl].
Qed.

Lemma only_posts (g : string → http_request) (l : list string) :
  posts ((λ id, Posted (g id)) <$> l) = length l ∧
  slept ((λ id, Posted (g id)) <$> l) = 0.
Proof.
  unfold posts, slept. induction l as [|x l [IH1 IH2]]; [done|].
  rewrite fmap_cons. simpl. split; [by f_equal|done].
Qed.

Lemma attempt_when_all_gone (rq : request) (idx : nat) (m : model_info)
    (f : frame World) (key : string) (c : counts) :
  (∀ r w, ∃ resp w', requests_post r w = (inl resp, w') ∧
                     (status_code resp = 410 ∨ status_code resp = 404)) →
  provider m = "huggingface" →
  enabled m = true →
  api_key m = Some key →
  stats f !! provider m = Some c →
  ∃ f' i,
    attempt rq idx m f = StepNext (disable m) f' ∧
    stats f' = <[provider m := failed_once c]> (stats f) ∧
    trace f' = trace f ++ [i] ∧
    inv_wire i = (λ id, Posted (hf_request key (messages_to_prompt (messages rq))
                                  rq (timeout m) id)) <$> models_to_try m ∧
    posts (inv_wire i) = length (models_to_try m) ∧
    slept (inv_wire i) = 0.
Proof.
  intros Hgone Hprov Hen Hkey Hc.
  destruct (hf_loop_gone (hf_request key (messages_to_prompt (messages rq)) rq (timeout m))
              (List.last (models_to_try m) "") (models_to_try m) Hgone None (world f))
    as (w' & Hloop).
  assert (Hcall : call_adapter rq m (world f) =
            Some (inr (PyError "Exception"
                         (all_failed_message
                            (match last (models_to_try m) with
                             | Some id => Some (gone_message id)
                             | None => None
                             end))), w',
                  (λ id, Posted (hf_request key (messages_to_prompt (messages rq))
                                   rq (timeout m) id)) <$> models_to_try m)).
  { unfold call_adapter. rewrite Hprov. simpl.
    unfold generate_with_huggingface. by rewrite Hkey, Hloop. }
  rewrite (attempt_raises groq_chat requests_post gemini_generate fix_text
             rq idx m f _ _ _ c Hen Hcall Hc).
  rewrite all_failed_is_unavailable.
  eexists _, _. split; [done|]. cbn [stats trace inv_wire].
  split; [done|]. split; [done|]. split; [done|]. apply only_posts.
Qed.

(** When the service answers 410 or 404 to every POST, one pass of the
    loop of [generate] over the enabled Hugging Face entry POSTs the
    request of the call exactly once to each declared model id, in
    declared order, and never sleeps; the provider has one more failure
    and the same successes, the counters of the other providers are as
    before, and the entry is left with [enabled] false, its name,
    provider and model ids unchanged. *)
Theorem all_models_gone_disables (rq : request) (idx : nat) (m : model_info)
    (f : frame World) (key : string) (c : counts) :
  (∀ r w, ∃ resp w', requests_post r w = (inl resp, w') ∧
                     (status_code resp = 410 ∨ status_code resp = 404)) →
  provider m = "huggingface" →
  enabled m = true →
  api_key m = Some key →
  stats f !! provider m = Some c →
  ∃ m' f' i,
    attempt rq idx m f = StepNext m' f' ∧
    enabled m' = false ∧
    name m' = name m ∧ provider m' = provider m ∧ model m' = model m ∧
    fallback_models m' = fallback_models m ∧
    stats f' !! "huggingface"
      = Some {| success := success c; failures := S (failures c) |} ∧
    (∀ q, q ≠ "huggingface" → stats f' !! q = stats f !! q) ∧
    trace f' = trace f ++ [i] ∧
    inv_wire i =
      (λ id, Posted
               {| api_url := "https://api-inference.huggingface.co/models/" +:+ id;
                  authorization := "Bearer " +:+ key;
                  json := {| inputs := messages_to_prompt (messages rq);
                             temperature := req_temperature rq;
                             max_new_tokens := max_tokens rq;
                             return_full_text := false |};
                  post_timeout := timeout m |}) <$> models_to_try m ∧
    posts (inv_wire i) = length (models_to_try m) ∧
    slept (inv_wire i) = 0.
Proof.
  intros Hgone Hprov Hen Hkey Hc.
  destruct (attempt_when_all_gone rq idx m f key c Hgone Hprov Hen Hkey Hc)
    as (f' & i & Hatt & Hst & Htr & Hwire & Hposts & Hslept).
  exists (disable m), f', i. rewrite Hprov in Hst.
  split; [done|]. split; [by destruct m|].
  split; [by destruct m|]. split; [by destruct m|]. split; [by destruct m|].
  split; [by destruct m|].
  split; [by rewrite Hst, lookup_insert_eq|].
  split; [intros q Hq; by rewrite Hst, lookup_insert_ne|].
  split; [done|]. split; [exact Hwire|]. by split.
Qed.

(** ** The registry over a sequence of calls *)

Lemma flag_steps_names (ms ms' : list model_info) :
  Forall2 flag_step ms ms' →
  name <$> ms' = name <$> ms ∧ model <$> ms' = model <$> ms.
Proof.
  induction 1 as [|m m' ms ms' Hstep _ [IH1 IH2]]; [done|].
  rewrite !fmap_cons, IH1, IH2. by destruct Hstep as [->| ->].
Qed.

Lemma generate_all_outcomes (rqs : list request) :
  ∀ mgr (w w' : World) os mgr' tr,
    well_formed mgr →
    generate_all rqs mgr w = (os, mgr', w', tr) →
    well_formed mgr' ∧ length os = length rqs ∧
    Forall (λ o, ∀ e, o ≠ Uncaught e) os.
Proof.
  induction rqs as [|rq rqs IH]; intros mgr w w' os mgr' tr Hwf H; simpl in H.
  - simplify_eq. split; [done|]. split; [done|constructor].
  - destruct (generate rq mgr w) as [[[o mgr1] w1] tr1] eqn:Hgen.
    destruct (generate_all rqs mgr1 w1) as [[[os2 mgr2] w2] tr2] eqn:Hall.
    simplify_eq.
    pose proof (generate_well_formed _ _ _ _ _ _ _ _ _ _ _ Hwf Hgen) as Hwf1.
    destruct (generate_inv _ _ _ _ _ _ _ _ _ _ _ (proj1 Hwf) Hgen) as (Hunc & _).
    destruct (IH _ _ _ _ _ _ Hwf1 Hall) as (Hwf2 & Hlen & Hos).
    split; [done|]. split; [simpl; by rewrite Hlen|]. by constructor.
Qed.

(** Over any sequence of calls, [generate] answers each request with a
    return or with the exhaustion error (no [KeyError] escapes), keeps
    the registry well formed, keeps the entries, their names, providers
    and model ids in place, and never switches a disabled entry back on. *)
Theorem registry_is_stable (rqs : list request) (mgr mgr' : manager) (w w' : World)
    (os : list outcome) (tr : list invocation) :
  well_formed mgr →
  generate_all rqs mgr w = (os, mgr', w', tr) →
  well_formed mgr' ∧
  length os = length rqs ∧
  Forall (λ o, ∀ e, o ≠ Uncaught e) os ∧
  name <$> models mgr' = name <$> models mgr ∧
  provider <$> models mgr' = provider <$> models mgr ∧
  model <$> models mgr' = model <$> models mgr ∧
  ∀ k m m', models mgr !! k = Some m → models mgr' !! k = Some m' →
            enabled m = false → enabled m' = false.
Proof.
  intros Hwf H.
  destruct (generate_all_outcomes rqs _ _ _ _ _ _ Hwf H) as (Hwf' & Hlen & Hos).
  destruct (generate_all_inv _ _ _ _ rqs _ _ _ _ _ _ (proj1 Hwf) H) as (Hflags & _).
  destruct (flag_steps_names _ _ Hflags) as [Hn Hm].
  split; [done|]. split; [done|]. split; [done|]. split; [done|].
  split; [by apply flag_steps_providers|]. split; [done|].
  intros k m m' Hk Hk' Hdis.
  destruct (Forall2_lookup_l _ _ _ _ _ Hflags Hk) as (m2 & Hm2 & Hstep).
  simplify_eq. by eapply flag_step_disabled.
Qed.

End MoreFacts2.

(** ** The registry at start-up *)

Lemma initial_counters_zero (env : environment) (p : string) (c : counts) :
  model_stats (initialize_models env) !! p = Some c → c = zero.
Proof.
  unfold initialize_models.
  destruct (key_set (GROQ_API_KEY env)), (GROQ_AVAILABLE env && groq_client_ok env),
    (key_set (HUGGINGFACE_API_KEY env)), (HF_AVAILABLE env),
    (key_set (GOOGLE_API_KEY env)), (key_set (GEMINI_API_KEY env)),
    (GEMINI_AVAILABLE env && gemini_configure_ok env);
    cbn [models model_stats]; intros H;
    repeat (apply lookup_insert_Some in H as [[_ H]|[_ H]]; [by symmetry|]);
    by rewrite lookup_empty in H.
Qed.

Lemma initial_keys (env : environment) (p : string) :
  is_Some (model_stats (initialize_models env) !! p) ↔
  p ∈ provider <$> models (initialize_models env).
Proof.
  rewrite <- elem_of_dom. unfold initialize_models.
  destruct (key_set (GROQ_API_KEY env)), (GROQ_AVAILABLE env && groq_client_ok env),
    (key_set (HUGGINGFACE_API_KEY env)), (HF_AVAILABLE env),
    (key_set (GOOGLE_API_KEY env)), (key_set (GEMINI_API_KEY env)),
    (GEMINI_AVAILABLE env && gemini_configure_ok env);
    cbn [models model_stats app fmap list_fmap provider groq_entry huggingface_entry
         gemini_entry];
    rewrite ?dom_insert_L, dom_empty_L;
    rewrite ?elem_of_union, ?elem_of_singleton, ?elem_of_cons, elem_of_nil, elem_of_empty;
    tauto.
Qed.

Lemma initial_total_zero (env : environment) (p : string) :
  total (model_stats (initialize_models env)) p = 0%nat.
Proof.
  unfold total.
  destruct (model_stats (initialize_models env) !! p) as [c|] eqn:Hc; [|done].
  by rewrite (initial_counters_zero env p c Hc).
Qed.

(** [_initialize_models] registers exactly the configured providers, in
    the order Groq, Hugging Face, Gemini, each enabled; [model_stats] has
    the entry [{'success': 0, 'failures': 0}] for each registered provider
    and no other entry; [__init__] raises its [ValueError] exactly when
    none of the three is configured. *)
Theorem registry_follows_configuration (env : environment) :
  provider <$> models (initialize_models env)
    = (if groq_configured env then ["groq"] else []) ++
      (if huggingface_configured env then ["huggingface"] else []) ++
      (if gemini_configured env then ["gemini"] else []) ∧
  Forall (λ m, enabled m = true) (models (initialize_models env)) ∧
  (∀ p, p ∈ provider <$> models (initialize_models env) →
        model_stats (initialize_models env) !! p
          = Some {| success := 0; failures := 0 |}) ∧
  (∀ p, p ∉ provider <$> models (initialize_models env) →
        model_stats (initialize_models env) !! p = None) ∧
  ((∃ e, init env = inr e) ↔
   groq_configured env = false ∧ huggingface_configured env = false ∧
   gemini_configured env = false).
Proof.
  split; [|split; [|split; [|split]]].
  - unfold initialize_models, groq_configured, huggingface_configured, gemini_configured.
    destruct (key_set (GROQ_API_KEY env)), (GROQ_AVAILABLE env), (groq_client_ok env),
      (key_set (HUGGINGFACE_API_KEY env)), (HF_AVAILABLE env),
      (key_set (GOOGLE_API_KEY env)), (key_set (GEMINI_API_KEY env)),
      (GEMINI_AVAILABLE env), (gemini_configure_ok env); reflexivity.
  - unfold initialize_models.
    destruct (key_set (GROQ_API_KEY env)), (GROQ_AVAILABLE env && groq_client_ok env),
      (key_set (HUGGINGFACE_API_KEY env)), (HF_AVAILABLE env),
      (key_set (GOOGLE_API_KEY env)), (key_set (GEMINI_API_KEY env)),
      (GEMINI_AVAILABLE env && gemini_configure_ok env);
      cbn [models app]; repeat constructor.
  - intros p Hp. apply initial_keys in Hp as [c Hc].
    by rewrite Hc, (initial_counters_zero env p c Hc).
  - intros p Hp.
    destruct (model_stats (initialize_models env) !! p) as [c|] eqn:Hc; [|done].
    exfalso. apply Hp, initial_keys. by rewrite Hc.
  - unfold init, initialize_models, groq_configured, huggingface_configured,
      gemini_configured.
    destruct (key_set (GROQ_API_KEY env)), (GROQ_AVAILABLE env), (groq_client_ok env),
      (key_set (HUGGINGFACE_API_KEY env)), (HF_AVAILABLE env),
      (key_set (GOOGLE_API_KEY env)), (key_set (GEMINI_API_KEY env)),
      (GEMINI_AVAILABLE env), (gemini_configure_ok env);
      cbn; (split; [intros [e He]; try discriminate He; done
                   |intros (H1 & H2 & H3); try discriminate; eauto]).
Qed.

(** ** Reading the counters *)

Lemma percent_is_not_na (a : string) : a +:+ "%" ≠ "N/A".
Proof.
  destruct a as [|c1 [|c2 [|c3 a]]]; try discriminate.
  rewrite !str_app_cons. destruct a; discriminate.
Qed.

Lemma returned_then_failed_le (p : string) (tr : list invocation) :
  (returned_then_failed p tr ≤ invocations p tr)%nat.
Proof.
  unfold returned_then_failed, invocations.
  induction tr as [|i tr IH]; simpl; [done|].
  destruct (String.eqb (inv_provider i) p); simpl; [|done].
  destruct (inv_result i), (inv_handled i); simpl; lia.
Qed.

Section Reports.

Context {World : Type}.
Variable groq_chat :
  string -> list message -> Q -> Z -> Z -> World -> (pyval + exn) * World.
Variable requests_post : http_request -> World -> (response + exn) * World.
Variable gemini_generate :
  string -> string -> string -> Q -> Z -> World -> (pyval + exn) * World.
Variable fix_text : string -> string.
Variable one_decimal : nat → nat → string.

Local Abbreviation generate_all := (generate_all groq_chat requests_post gemini_generate fix_text).

(** After any sequence of calls on a freshly built manager,
    [get_model_stats] has one entry per registered provider; its two
    counts add up to the invocations of that provider plus those of them
    that returned and were counted as failed as well; and its success
    rate reads N/A exactly when the provider was never invoked. *)
Theorem report_after_calls (env : environment) (rqs : list request) (w w' : World)
    (os : list outcome) (mgr : manager) (tr : list invocation) (p : string) :
  generate_all rqs (initialize_models env) w = (os, mgr, w', tr) →
  (is_Some (get_model_stats one_decimal (model_stats mgr) !! p) ↔
   p ∈ provider <$> models (initialize_models env)) ∧
  ∀ r, get_model_stats one_decimal (model_stats mgr) !! p = Some r →
       (report_success r + report_failures r
          = invocations p tr + returned_then_failed p tr)%nat ∧
       (success_rate r = "N/A" ↔ invocations p tr = 0%nat).
Proof.
  intros Hall.
  pose proof (initialize_models_well_formed env) as Hwf.
  pose proof (counters_conservation _ _ _ _ rqs _ _ _ _ _ _ p (proj1 Hwf) Hall) as Htot.
  rewrite initial_total_zero in Htot. simpl in Htot.
  split.
  - unfold get_model_stats. rewrite lookup_fmap, fmap_is_Some.
    rewrite <- (generate_all_keeps_keys _ _ _ _ rqs p _ _ _ _ _ _ (proj1 Hwf) Hall).
    apply initial_keys.
  - intros r Hr. unfold get_model_stats in Hr. rewrite lookup_fmap in Hr.
    unfold total in Htot.
    destruct (model_stats mgr !! p) as [c|] eqn:Hc; [|done].
    simpl in Hr. simplify_eq.
    pose proof (returned_then_failed_le p tr) as Hle.
    destruct (0 <? success c + failures c)%nat eqn:Hpos; simpl.
    + apply Nat.ltb_lt in Hpos. split; [lia|]. split.
      * intros Hna. by apply percent_is_not_na in Hna.
      * lia.
    + apply Nat.ltb_ge in Hpos. split; [lia|]. split; [lia|done].
Qed.

End Reports.

(** * Strings: stripping, searching, replacing *)


Lemma str_app_nil_l (a : string) : "" +:+ a = a.
Proof. reflexivity. Qed.

Lemma rstrip_last (P : ascii → bool) (s : string) :
  ∀ t c, Text.rstrip P s = t +:+ String c EmptyString → P c = false.
Proof.
  induction s as [|a s IH]; intros t c H; simpl in H.
  - by destruct t.
  - destruct (Text.rstrip P s) as [|b r] eqn:Hr.
    + destruct (P a) eqn:Ha; [by destruct t|].
      destruct t as [|x t].
      * rewrite str_app_nil_l in H. by simplify_eq.
      * rewrite str_app_cons in H. injection H as _ H. by destruct t.
    + destruct t as [|x t].
      * rewrite str_app_nil_l in H. by simplify_eq.
      * rewrite str_app_cons in H. injection H as _ H. by eapply IH.
Qed.

Lemma lstrip_first (P : ascii → bool) (s : string) (c : ascii) (t : string) :
  Text.lstrip P s = String c t → P c = false.
Proof.
  induction s as [|a s IH]; simpl; [done|].
  destruct (P a) eqn:Ha; [done|]. intros H. by simplify_eq.
Qed.

(** [rstrip] cuts a suffix off, [lstrip] and [drop] a prefix. *)
Lemma rstrip_prefix (P : ascii → bool) (s : string) :
  ∃ t, s = Text.rstrip P s +:+ t.
Proof.
  induction s as [|a s [t IH]]; simpl; [by exists ""|].
  destruct (Text.rstrip P s) as [|b r] eqn:Hr.
  - destruct (P a).
    + by exists (String a s).
    + exists t. simpl in IH. rewrite !str_app_cons. by rewrite <- IH.
  - exists t. rewrite str_app_cons. by rewrite <- IH.
Qed.

Lemma lstrip_suffix (P : ascii → bool) (s : string) :
  ∃ l, s = l +:+ Text.lstrip P s.
Proof.
  induction s as [|a s [l IH]]; simpl; [by exists ""|].
  destruct (P a).
  - exists (String a l). rewrite str_app_cons. by rewrite <- IH.
  - by exists "".
Qed.

Lemma drop_suffix (n : nat) (s : string) : ∃ l, s = l +:+ Text.drop n s.
Proof.
  revert s. induction n as [|n IH]; intros s; simpl; [by exists ""|].
  destruct s as [|a s]; [by exists ""|].
  destruct (IH s) as [l Hl]. exists (String a l). rewrite str_app_cons. by rewrite <- Hl.
Qed.

Lemma rstrip_first (P : ascii → bool) (s : string) (c : ascii) (t : string) :
  Text.rstrip P s = String c t → ∃ t', s = String c t'.
Proof.
  intros H. destruct (rstrip_prefix P s) as [u Hu]. rewrite H in Hu.
  rewrite str_app_cons in Hu. eauto.
Qed.



Lemma str_app_nil_r (a : string) : a +:+ "" = a.
Proof. induction a as [|c a IH]; [done|]. by rewrite str_app_cons, IH. Qed.

Lemma prefix_nil (s : string) : String.prefix "" s = true.
Proof. by destruct s. Qed.

Lemma prefix_app_l (kw y z : string) :
  String.prefix kw y = true → String.prefix kw (y +:+ z) = true.
Proof.
  revert y. induction kw as [|k kw IH]; intros y H; [by destruct (y +:+ z)|].
  destruct y as [|c y]; [done|]. rewrite str_app_cons. simpl in *.
  destruct (ascii_dec k c); [by apply IH|done].
Qed.

Lemma contains_app_r (kw a y : string) :
  Str.contains kw y = true → Str.contains kw (a +:+ y) = true.
Proof.
  intros H. induction a as [|c a IH]; [done|].
  rewrite str_app_cons. cbn [Str.contains]. rewrite IH. apply orb_true_r.
Qed.

Lemma contains_app_l (kw y z : string) :
  Str.contains kw y = true → Str.contains kw (y +:+ z) = true.
Proof.
  induction y as [|c y IH]; cbn [Str.contains]; intros H.
  - rewrite orb_false_r in H. apply contains_of_prefix.
    by apply (prefix_app_l kw "" z).
  - rewrite str_app_cons. cbn [Str.contains].
    apply orb_true_iff in H as [H|H].
    + apply (prefix_app_l _ _ z) in H. rewrite str_app_cons in H. by rewrite H.
    + rewrite (IH H). apply orb_true_r.
Qed.

(** A part of a text has only what the text has. *)
Lemma contains_infix (kw l y r : string) :
  Str.contains kw y = true → Str.contains kw (l +:+ y +:+ r) = true.
Proof. intros H. by apply contains_app_r, contains_app_l. Qed.


(** * [_clean_sql] *)






(** [_clean_sql] never returns a text that ends in a semicolon or that
    starts with white space. (It may end in white space: the semicolons are
    stripped after the white space.) *)
Theorem clean_sql_edges (sql : string) :
  (∀ t, clean_sql sql ≠ t +:+ ";") ∧
  (∀ c t, clean_sql sql = String c t → Text.is_space c = false).
Proof.
  unfold clean_sql. split.
  - intros t H. by apply rstrip_last in H.
  - intros c t H. apply rstrip_first in H as [t' H]. unfold Text.strip in H.
    apply rstrip_first in H as [t'' H]. by apply lstrip_first in H.
Qed.

Example clean_sql_keeps_space :
  clean_sql "SELECT 1 ;" = "SELECT 1 ".
Proof. reflexivity. Qed.


(** ** No code fence is left *)

Local Abbreviation unfence := (Text.replace_from fence "").

Lemma unfence_cons (c : ascii) (s : string) :
  unfence 0 (String c s) =
  if String.prefix fence (String c s) then unfence 2 s else String c (unfence 0 s).
Proof. cbn [Text.replace_from]. by destruct (String.prefix fence (String c s)). Qed.

Lemma prefix_cons (a c : ascii) (kw s : string) :
  String.prefix (String a kw) (String c s)
  = if ascii_dec a c then String.prefix kw s else false.
Proof. reflexivity. Qed.

Lemma fence_prefix (c : ascii) (s : string) :
  String.prefix fence (String c s) = true ↔
  c = "`"%char ∧ ∃ s', s = String "`" (String "`" s').
Proof.
  change fence with (String "`" (String "`" (String "`" ""))). split.
  - rewrite prefix_cons. destruct (ascii_dec "`" c) as [<-|]; [|done].
    destruct s as [|c2 s]; [done|].
    rewrite prefix_cons. destruct (ascii_dec "`" c2) as [<-|]; [|done].
    destruct s as [|c3 s]; [done|].
    rewrite prefix_cons. destruct (ascii_dec "`" c3) as [<-|]; [|done].
    eauto.
  - intros (-> & s' & ->). rewrite !prefix_cons.
    destruct (ascii_dec "`" "`"); [apply prefix_nil|done].
Qed.

(** The output starts with a backtick only if the input does. *)
Lemma unfence_head (s : string) (t : string) :
  unfence 0 s = String "`" t → ∃ s', s = String "`" s'.
Proof.
  destruct s as [|c s]; [done|]. rewrite unfence_cons.
  destruct (String.prefix fence (String c s)) eqn:Hp.
  - apply fence_prefix in Hp as (-> & _). eauto.
  - intros H. simplify_eq. eauto.
Qed.

(** The output starts with two backticks only if the input does. *)
Lemma unfence_head2 (s : string) (t : string) :
  unfence 0 s = String "`" (String "`" t) → ∃ s', s = String "`" (String "`" s').
Proof.
  destruct s as [|c s]; [done|]. rewrite unfence_cons.
  destruct (String.prefix fence (String c s)) eqn:Hp.
  - apply fence_prefix in Hp as (-> & s' & ->). eauto.
  - intros H. injection H as -> H. apply unfence_head in H as [s' ->]. eauto.
Qed.

Lemma unfence_clean (n : nat) :
  ∀ s, (String.length s ≤ n)%nat → Str.contains fence (unfence 0 s) = false.
Proof.
  induction n as [n IH] using lt_wf_ind. intros s Hlen.
  destruct s as [|c s]; [done|]. rewrite unfence_cons.
  destruct (String.prefix fence (String c s)) eqn:Hp.
  - apply fence_prefix in Hp as (-> & s' & ->). cbn [Text.replace_from].
    simpl in Hlen. apply (IH (String.length s')); lia.
  - cbn [Str.contains]. simpl in Hlen.
    rewrite (IH (String.length s)) by lia. rewrite orb_false_r.
    destruct (String.prefix fence (String c (unfence 0 s))) eqn:Hq; [|done].
    apply fence_prefix in Hq as (-> & t & Ht).
    apply unfence_head2 in Ht as [s' ->].
    assert (String.prefix fence (String "`" (String "`" (String "`" s'))) = true)
      by (apply fence_prefix; eauto).
    congruence.
Qed.

Lemma without_fences_clean (sql : string) :
  Str.contains fence (without_fences sql) = false.
Proof. unfold without_fences, Text.replace. by eapply unfence_clean. Qed.

(** The text [_clean_sql] returns has no code fence in it, whatever the
    model wrote. *)
Theorem clean_sql_has_no_fence (sql : string) :
  Str.contains fence (clean_sql sql) = false.
Proof.
  unfold clean_sql.
  set (d := without_fences sql).
  set (d' := if 0 <? Text.find "SELECT" (Text.upper d)
             then Text.drop (Z.to_nat (Text.find "SELECT" (Text.upper d))) d else d).
  destruct (Str.contains fence (Text.rstrip is_semicolon (Text.strip d'))) eqn:Hc; [|done].
  destruct (rstrip_prefix is_semicolon (Text.strip d')) as [r1 H1].
  destruct (rstrip_prefix Text.is_space (Text.lstrip Text.is_space d')) as [r2 H2].
  destruct (lstrip_suffix Text.is_space d') as [l1 H3].
  assert (H4 : ∃ l2, d = l2 +:+ d').
  { subst d'. destruct (0 <? _); [apply drop_suffix|by exists ""]. }
  destruct H4 as [l2 H4]. fold (Text.strip d') in H2.
  pose proof (without_fences_clean sql) as Hclean. fold d in Hclean.
  assert (Hd : d = (l2 +:+ l1) +:+ Text.rstrip is_semicolon (Text.strip d') +:+ (r1 +:+ r2)).
  { rewrite H4 at 1. rewrite H3 at 1. rewrite H2 at 1. rewrite H1 at 1.
    by rewrite !str_app_assoc. }
  rewrite Hd, (contains_infix _ _ _ _ Hc) in Hclean. done.
Qed.

(** * [SimpleCacheManager] *)

Lemma split_lstrip (s : string) : Text.split (Text.lstrip Text.is_space s) = Text.split s.
Proof.
  induction s as [|c s IH]; [done|]. cbn [Text.lstrip].
  destruct (Text.is_space c) eqn:Hc; [|done]. rewrite IH. cbn [Text.split]. by rewrite Hc.
Qed.

Lemma split_cons (c : ascii) (s : string) :
  Text.split (String c s) =
  if Text.is_space c then Text.split s
  else match s with
       | EmptyString => [String c EmptyString]
       | String c' _ =>
           if Text.is_space c' then String c EmptyString :: Text.split s
           else match Text.split s with
                | w :: ws => String c w :: ws
                | [] => [String c EmptyString]
                end
       end.
Proof. reflexivity. Qed.

Lemma rstrip_cons (P : ascii → bool) (c : ascii) (s : string) :
  Text.rstrip P (String c s) =
  match Text.rstrip P s with
  | EmptyString => if P c then EmptyString else String c EmptyString
  | r => String c r
  end.
Proof. reflexivity. Qed.

Lemma rstrip_empty_split (s : string) :
  Text.rstrip Text.is_space s = "" → Text.split s = [].
Proof.
  induction s as [|c s IH]; [done|]. rewrite rstrip_cons, split_cons.
  destruct (Text.rstrip Text.is_space s) eqn:Hr; [|done].
  destruct (Text.is_space c); [by intros _; apply IH|done].
Qed.

Lemma split_rstrip (s : string) : Text.split (Text.rstrip Text.is_space s) = Text.split s.
Proof.
  induction s as [|c s IH]; [done|]. rewrite rstrip_cons.
  destruct (Text.rstrip Text.is_space s) as [|b r] eqn:Hr.
  - pose proof (rstrip_empty_split s Hr) as Hs. rewrite split_cons, Hs.
    destruct (Text.is_space c) eqn:Hc; [done|]. rewrite split_cons, Hc.
    destruct s as [|c' s]; [done|]. by destruct (Text.is_space c').
  - destruct (rstrip_first _ _ _ _ Hr) as [s' ->].
    rewrite (split_cons c (String b r)), (split_cons c (String b s')).
    by rewrite IH.
Qed.

Lemma split_strip (s : string) : Text.split (Text.strip s) = Text.split s.
Proof. unfold Text.strip. by rewrite split_rstrip, split_lstrip. Qed.

Lemma lstrip_length (P : ascii → bool) (s : string) :
  (String.length (Text.lstrip P s) ≤ String.length s)%nat.
Proof.
  induction s as [|c s IH]; simpl; [done|]. destruct (P c); simpl; lia.
Qed.

Lemma lstrip_not_longer (P : ascii → bool) (c : ascii) (s : string) :
  Text.lstrip P s ≠ String c s.
Proof.
  intros H. pose proof (lstrip_length P s) as Hlen. rewrite H in Hlen. simpl in Hlen. lia.
Qed.

Lemma glued_word (g z : string) :
  g ≠ "" →
  all_chars (λ c, negb (Text.is_space c)) g = true →
  Text.lstrip Text.is_space z = z →
  Text.split (g +:+ z) =
  match Text.split z with
  | w :: ws => (g +:+ w) :: ws
  | [] => [g]
  end.
Proof.
  intros Hg Hsolid Hz. induction g as [|c g IH]; [done|].
  simpl in Hsolid. apply andb_true_iff in Hsolid as [Hc Hsolid].
  apply negb_true_iff in Hc. rewrite str_app_cons, split_cons, Hc.
  destruct g as [|c2 g].
  - rewrite str_app_nil_l. destruct z as [|c' z]; [done|].
    cbn [Text.lstrip] in Hz. destruct (Text.is_space c') eqn:Hc'.
    + by apply lstrip_not_longer in Hz.
    + by destruct (Text.split (String c' z)).
  - rewrite str_app_cons. simpl in Hsolid.
    apply andb_true_iff in Hsolid as [Hc2 Hsolid']. apply negb_true_iff in Hc2.
    rewrite Hc2. rewrite <- str_app_cons, IH; [|done|by simpl; rewrite Hc2].
    by destruct (Text.split z).
Qed.

Lemma join_glued (g w : string) (ws : list string) :
  Str.join " " ((g +:+ w) :: ws) = g +:+ Str.join " " (w :: ws).
Proof.
  unfold Str.join. destruct ws as [|w2 ws]; simpl; [done|]. by rewrite str_app_assoc.
Qed.

Lemma lower_keeps_space (c : ascii) : Text.is_space (Str.lower_char c) = Text.is_space c.
Proof. destruct c as [[] [] [] [] [] [] [] []]; by vm_compute. Qed.

Lemma lower_lstrip (s : string) :
  Text.lstrip Text.is_space s = s →
  Text.lstrip Text.is_space (Str.lower s) = Str.lower s.
Proof.
  destruct s as [|c s]; [done|]. simpl. rewrite lower_keeps_space.
  destruct (Text.is_space c) eqn:Hc; [|done].
  intros H. by apply lstrip_not_longer in H.
Qed.

Section CacheFacts.

Context {V : Type}.
Variable md5_hexdigest : string → string.

Local Abbreviation generate_key := (generate_key md5_hexdigest).
Local Abbreviation cache_get := (cache_get (V:=V) md5_hexdigest).
Local Abbreviation cache_set := (cache_set (V:=V) md5_hexdigest).

(** The key depends on the user and on the words of the lowercased prompt
    only. *)
Lemma generate_key_words (p1 p2 user_id : string) :
  Text.split (Str.lower p1) = Text.split (Str.lower p2) →
  generate_key p1 user_id = generate_key p2 user_id.
Proof. intros H. unfold generate_key. by rewrite !split_strip, H. Qed.

(** For prompts of ASCII characters: what [set] stores under a prompt,
    [get] returns for the same user and any prompt with the same words,
    whatever the letter case and the white space between and around them;
    entries under other keys are left as they were. *)
Theorem cache_round_trip (cache : gmap string V) (p1 p2 user_id : string) (value : V) :
  (∀ s, md5_hexdigest s ≠ "") →
  is_ascii p1 = true →
  is_ascii p2 = true →
  Text.split (Str.lower p1) = Text.split (Str.lower p2) →
  cache_get (cache_set cache p1 user_id value) p2 user_id = Some value ∧
  ∀ q other,
    is_ascii q = true →
    generate_key q other ≠ generate_key p1 user_id →
    cache_get (cache_set cache p1 user_id value) q other = cache_get cache q other.
Proof.
  intros Hmd5 _ _ Hwords. unfold cache_get, cache_set.
  assert (String.eqb (generate_key p1 user_id) "" = false) as ->.
  { apply String.eqb_neq, Hmd5. }
  simpl. split.
  - by rewrite (generate_key_words p2 p1 user_id), lookup_insert_eq.
  - intros q other _ Hne. by rewrite lookup_insert_ne.
Qed.

(** The key string joins the user id and the prompt with two colons and
    nothing marks where the one ends: for ASCII texts [x] and [p], a user
    whose id is [u::x] reads what user [u] stored under the prompt
    [x::p]. *)
Theorem cache_crosses_users (cache : gmap string V) (u x p : string) (value : V) :
  (∀ s, md5_hexdigest s ≠ "") →
  is_ascii x = true →
  is_ascii p = true →
  x ≠ "" →
  all_chars (λ c, negb (Text.is_space c)) x = true →
  Str.lower x = x →
  Text.lstrip Text.is_space p = p →
  cache_get (cache_set cache (x +:+ "::" +:+ p) u value) p (u +:+ "::" +:+ x) = Some value.
Proof.
  intros Hmd5 _ _ Hx Hsolid Hlow Hp. unfold cache_get, cache_set.
  assert (Hkey : generate_key p (u +:+ "::" +:+ x) = generate_key (x +:+ "::" +:+ p) u).
  { unfold generate_key. f_equal. rewrite !split_strip, !lower_app, Hlow.
    change (Str.lower "::") with "::".
    rewrite <- (str_app_assoc x "::" (Str.lower p)).
    rewrite (glued_word (x +:+ "::") (Str.lower p)).
    - rewrite !str_app_assoc.
      destruct (Text.split (Str.lower p)) as [|w ws].
      + unfold Str.join. simpl. by rewrite str_app_nil_r.
      + by rewrite join_glued, !str_app_assoc.
    - by destruct x.
    - clear -Hsolid. induction x as [|c x IH]; [done|].
      simpl in Hsolid. apply andb_true_iff in Hsolid as [Hc Hs].
      rewrite str_app_cons. simpl. by rewrite Hc, IH.
    - by apply lower_lstrip. }
  assert (String.eqb (generate_key (x +:+ "::" +:+ p) u) "" = false) as ->.
  { apply String.eqb_neq, Hmd5. }
  simpl. by rewrite Hkey, lookup_insert_eq.
Qed.

End CacheFacts.

(** * [_classify_prompt_type] *)

Section TriageFacts.

Context {World : Type}.
Variable groq_chat :
  string -> list message -> Q -> Z -> Z -> World -> (pyval + exn) * World.
Variable requests_post : http_request -> World -> (response + exn) * World.
Variable gemini_generate :
  string -> string -> string -> Q -> Z -> World -> (pyval + exn) * World.
Variable fix_text : string -> string.

Local Abbreviation classify_prompt_type :=
  (classify_prompt_type groq_chat requests_post gemini_generate fix_text).
Local Abbreviation generate_loop := (generate_loop groq_chat requests_post gemini_generate fix_text).
Local Abbreviation all_fail := (all_fail groq_chat requests_post gemini_generate).

Lemma any_in_intro (kws : list string) (kw s : string) :
  kw ∈ kws → Str.contains kw s = true → Str.any_in kws s = true.
Proof.
  intros Hin Hc. unfold Str.any_in. apply existsb_exists. exists kw.
  split; [by apply list_elem_of_In|done].
Qed.

(** A prompt in which one of the general keywords occurs, in any letter
    case and anywhere (inside a longer word too), is general conversation
    whatever else it says; the models are not asked. *)
Theorem general_keyword_wins (prompt kw : string) (mgr : manager) (w : World) :
  kw ∈ general_keywords →
  Str.contains kw (Str.lower prompt) = true →
  classify_prompt_type prompt mgr w = ("general_conversation", mgr, w, []).
Proof.
  intros Hin Hc. unfold classify_prompt_type.
  by rewrite (any_in_intro _ _ _ Hin Hc).
Qed.

(** For a prompt of ASCII characters: when no keyword of the three lists
    occurs in the lowercased prompt and every enabled provider fails the
    triage request, the triage answers [data_query], after one adapter
    invocation per enabled provider. *)
Theorem triage_defaults_to_data_query (prompt : string) (mgr : manager)
    (w w' : World) (es : list exn) :
  is_ascii prompt = true →
  well_formed mgr →
  Str.any_in (general_keywords ++ data_keywords ++ meta_keywords) (Str.lower prompt) = false →
  all_fail (triage_request prompt) (models mgr) w = Some (w', es) →
  ∃ mgr' tr,
    classify_prompt_type prompt mgr w = ("data_query", mgr', w', tr) ∧
    length tr = length es.
Proof.
  intros _ [Hcover Hnd] Hkw Hall. unfold classify_prompt_type.
  unfold Str.any_in in Hkw. rewrite !existsb_app in Hkw.
  apply orb_false_iff in Hkw as [Hg Hkw]. apply orb_false_iff in Hkw as [Hd Hm].
  unfold Str.any_in. rewrite Hg, Hd, Hm. unfold generate.
  set (f0 := {| stats := model_stats mgr; world := w; attempted_models := [];
                last_error := None; trace := [] |}).
  destruct (loop_all_fail groq_chat requests_post gemini_generate fix_text
              (triage_request prompt) (models mgr) 0 f0 w' es Hall Hcover Hnd)
    as (ms' & f' & Hloop & _ & Hw & _ & _ & _ & _ & _ & new & Htr & _).
  rewrite Hloop. simpl. rewrite Hw. eexists _, _. split; [done|].
  (* one invocation per failing provider *)
  clear -Hall Hloop Hcover. simpl in *.
  assert (Hgen : ∀ ms idx (f f1 : frame World) ms1 w1 es1,
            all_fail (triage_request prompt) ms (world f) = Some (w1, es1) →
            stats_cover ms (stats f) →
            generate_loop (triage_request prompt) idx ms f = (LoopEnd, ms1, f1) →
            length (trace f1) = (length (trace f) + length es1)%nat).
  { clear. induction ms as [|m ms IH]; intros idx f f1 ms1 w1 es1 Hall Hcover Hloop;
      simpl in Hall, Hloop.
    - simplify_eq. simpl. lia.
    - destruct (enabled m) eqn:Hen.
      + destruct (call_adapter groq_chat requests_post gemini_generate
                    (triage_request prompt) m (world f))
          as [[[[v|e] w2] wire]|] eqn:Hcall; try done.
        destruct (all_fail (triage_request prompt) ms w2) as [[w3 es']|] eqn:Hrest; [|done].
        simplify_eq. destruct (Hcover m) as [c Hc]; [by left|].
        rewrite (attempt_raises groq_chat requests_post gemini_generate fix_text
                   _ idx m f e w2 wire c Hen Hcall Hc) in Hloop.
        match type of Hloop with
        | context [generate_loop _ _ ms ?f2] =>
            destruct (generate_loop (triage_request prompt) (S idx) ms f2)
              as [[x ms2] f3] eqn:Hl; simplify_eq;
            apply (IH (S idx) f2 _ _ _ _ Hrest) in Hl
        end.
        * rewrite Hl. simpl. rewrite length_app. simpl. lia.
        * intros a Ha. simpl. apply insert_keeps_keys, Hcover. by right.
      + rewrite (attempt_disabled groq_chat requests_post gemini_generate fix_text
                   _ idx m f Hen) in Hloop.
        destruct (generate_loop (triage_request prompt) (S idx) ms f)
          as [[x ms2] f3] eqn:Hl. simplify_eq.
        apply (IH _ _ _ _ _ _ Hall) in Hl; [done|].
        intros a Ha. apply Hcover. by right. }
  by rewrite (Hgen (models mgr) 0%nat f0 f' ms' w' es Hall Hcover Hloop).
Qed.

End TriageFacts.

(** * The properties on concrete runs *)

Lemma exhaustion_lists_enabled_witness :
  let rq := Script.say "How many orders were placed?" in
  let mgr := initialize_models Script.env2 in
  let run := Script.generate rq mgr [] in
  ["Hugging Face Mistral 7B"; "Google Gemini Pro"] = name <$> List.filter enabled (models mgr) ∧
  model_stats run.1.1.2 = model_stats run.1.1.2 ∧
  Forall (λ i, is_Some (inv_handled i)) run.2 ∧
  Some Script.offline = last (omap inv_handled run.2).
Proof.
  intros rq mgr run.
  refine (exhaustion_lists_enabled Script.groq_chat Script.requests_post
            Script.gemini_generate Script.fix_text rq mgr run.1.1.2 [] []
            ["Hugging Face Mistral 7B"; "Google Gemini Pro"] (Some Script.offline)
            (model_stats run.1.1.2) run.2 _ _).
  - apply initialize_models_well_formed.
  - vm_compute. reflexivity.
Defined.

Lemma disabled_only_when_unavailable_witness :
  let rq := Script.say "How many orders were placed?" in
  let mgr := initialize_models Script.env3 in
  let w := [Script.Groq (inr (PyError "NotFoundError"
                                "Error code: 404 - model not found"));
            Script.status 503 "Service Unavailable";
            Script.ok 200 (PList [PDict [("generated_text",
                                          PStr "SELECT COUNT(*) FROM orders")]])] in
  let run := Script.generate rq mgr w in
  ∃ i e, i ∈ run.2 ∧ inv_index i = 0%nat ∧ inv_handled i = Some e ∧
         is_model_unavailable (Str.lower (str_exn e)) = true.
Proof.
  intros rq mgr w run.
  refine (disabled_only_when_unavailable Script.groq_chat Script.requests_post
            Script.gemini_generate Script.fix_text rq mgr run.1.1.2 w run.1.2
            run.1.1.1 run.2 0%nat groq_entry (disable groq_entry)
            _ _ _ _ _ _).
  - apply initialize_models_well_formed.
  - vm_compute. reflexivity.
  - reflexivity.
  - reflexivity.
  - vm_compute. reflexivity.
  - reflexivity.
Defined.

Lemma returned_value_is_first_success_witness :
  let rq := Script.say "How many orders were placed?" in
  let mgr := initialize_models Script.env3 in
  let w := [Script.Groq (inr (PyError "NotFoundError"
                                "Error code: 404 - model not found"));
            Script.status 503 "Service Unavailable";
            Script.ok 200 (PList [PDict [("generated_text",
                                          PStr "SELECT COUNT(*) FROM orders")]])] in
  let run := Script.generate rq mgr w in
  ∃ earlier i raw,
    run.2 = earlier ++ [i] ∧
    Forall (λ j, is_Some (inv_handled j)) earlier ∧
    inv_result i = inl raw ∧ inv_handled i = None ∧
    (if fix_typos rq && truthy raw
     then fix_llm_response Script.fix_text raw else inl raw)
      = inl (PStr "SELECT COUNT(*) FROM orders").
Proof.
  intros rq mgr w run.
  refine (returned_value_is_first_success Script.groq_chat Script.requests_post
            Script.gemini_generate Script.fix_text rq mgr run.1.1.2 w run.1.2
            (PStr "SELECT COUNT(*) FROM orders") run.2 _ _).
  - apply initialize_models_well_formed.
  - vm_compute. reflexivity.
Defined.

Lemma nothing_enabled_nothing_tried_witness :
  let rq := Script.say "How many orders were placed?" in
  let gone := Script.status 410 "Gone" in
  let mgr := (Script.generate rq (initialize_models Script.env1) [gone; gone; gone; gone]).1.1.2 in
  let w := [Script.ok 200 (PList [PDict [("generated_text", PStr "42")]])] in
  Script.generate rq mgr w = (AllFailed [] None (model_stats mgr), mgr, w, []).
Proof.
  intros rq gone mgr w.
  refine (nothing_enabled_nothing_tried Script.groq_chat Script.requests_post
            Script.gemini_generate Script.fix_text rq mgr w _).
  vm_compute. repeat constructor.
Defined.

Lemma all_models_gone_disables_witness :
  let rq := Script.say "How many orders were placed?" in
  let m := huggingface_entry "hf" in
  let f := {| stats := model_stats (initialize_models Script.env1); world := tt;
              attempted_models := []; last_error := None; trace := [] |} in
  ∃ m' f' i,
    attempt Steady.groq_chat (Steady.requests_post Steady.gone) Steady.gemini_generate
      Script.fix_text rq 0 m f = StepNext m' f' ∧
    enabled m' = false ∧
    name m' = name m ∧ provider m' = provider m ∧ model m' = model m ∧
    fallback_models m' = fallback_models m ∧
    stats f' !! "huggingface" = Some {| success := 0; failures := 1 |} ∧
    (∀ q, q ≠ "huggingface" → stats f' !! q = stats f !! q) ∧
    trace f' = trace f ++ [i] ∧
    inv_wire i =
      (λ id, Posted
               {| api_url := "https://api-inference.huggingface.co/models/" +:+ id;
                  authorization := "Bearer hf";
                  json := {| inputs := messages_to_prompt (messages rq);
                             temperature := 7 # 10;
                             max_new_tokens := 1024;
                             return_full_text := false |};
                  post_timeout := 45 |}) <$> hf_models ∧
    posts (inv_wire i) = 4%nat ∧
    slept (inv_wire i) = 0.
Proof.
  intros rq m f.
  refine (all_models_gone_disables Steady.groq_chat (Steady.requests_post Steady.gone)
            Steady.gemini_generate Script.fix_text rq 0%nat m f "hf" zero _ _ _ _ _).
  - intros r w. exists Steady.gone, w. split; [reflexivity|left; reflexivity].
  - reflexivity.
  - reflexivity.
  - reflexivity.
  - vm_compute. reflexivity.
Defined.

Lemma registry_is_stable_witness :
  let rq := Script.say "How many orders were placed?" in
  let mgr := initialize_models Script.env3 in
  let w := [Script.Groq (inr (PyError "NotFoundError"
                                "Error code: 404 - model not found"));
            Script.status 503 "Service Unavailable";
            Script.ok 200 (PList [PDict [("generated_text",
                                          PStr "SELECT COUNT(*) FROM orders")]])] in
  let run := Script.generate_all [rq; rq] mgr w in
  well_formed run.1.1.2 ∧
  length run.1.1.1 = 2%nat ∧
  Forall (λ o, ∀ e, o ≠ Uncaught e) run.1.1.1 ∧
  name <$> models run.1.1.2 = name <$> models mgr ∧
  provider <$> models run.1.1.2 = provider <$> models mgr ∧
  model <$> models run.1.1.2 = model <$> models mgr ∧
  ∀ k m m', models mgr !! k = Some m → models run.1.1.2 !! k = Some m' →
            enabled m = false → enabled m' = false.
Proof.
  intros rq mgr w run.
  refine (registry_is_stable Script.groq_chat Script.requests_post
            Script.gemini_generate Script.fix_text [rq; rq] mgr run.1.1.2 w run.1.2
            run.1.1.1 run.2 _ _).
  - apply initialize_models_well_formed.
  - vm_compute. reflexivity.
Defined.

Lemma report_after_calls_witness :
  let rq := Script.say "How many orders were placed?" in
  let w := [Script.ok 200 (PList [PDict [("generated_text",
                                          PStr "SELECT COUNT(*) FROM orders")]])] in
  let run := Script.generate_all [rq; rq] (initialize_models Script.env2) w in
  let one_decimal := λ s t : nat, if (s =? t)%nat then "100.0" else "50.0" in
  (is_Some (get_model_stats one_decimal (model_stats run.1.1.2) !! "huggingface") ↔
   "huggingface" ∈ provider <$> models (initialize_models Script.env2)) ∧
  ∀ r, get_model_stats one_decimal (model_stats run.1.1.2) !! "huggingface" = Some r →
       (report_success r + report_failures r
          = invocations "huggingface" run.2 + returned_then_failed "huggingface" run.2)%nat ∧
       (success_rate r = "N/A" ↔ invocations "huggingface" run.2 = 0%nat).
Proof.
  intros rq w run one_decimal.
  refine (report_after_calls Script.groq_chat Script.requests_post
            Script.gemini_generate Script.fix_text one_decimal Script.env2 [rq; rq]
            w run.1.2 run.1.1.1 run.1.1.2 run.2 "huggingface" _).
  vm_compute. reflexivity.
Defined.


Lemma cache_round_trip_witness :
  let md5_hexdigest := λ s, "k" +:+ s in
  let cache : gmap string nat := ∅ in
  cache_get md5_hexdigest
    (cache_set md5_hexdigest cache "  Total   SALES in March " "u1" 7%nat)
    "total sales in march" "u1" = Some 7%nat ∧
  ∀ q other,
    is_ascii q = true →
    generate_key md5_hexdigest q other
      ≠ generate_key md5_hexdigest "  Total   SALES in March " "u1" →
    cache_get md5_hexdigest
      (cache_set md5_hexdigest cache "  Total   SALES in March " "u1" 7%nat) q other
      = cache_get md5_hexdigest cache q other.
Proof.
  intros md5_hexdigest cache.
  refine (cache_round_trip md5_hexdigest cache "  Total   SALES in March "
            "total sales in march" "u1" 7%nat _ _ _ _).
  - intros s. discriminate.
  - reflexivity.
  - reflexivity.
  - vm_compute. reflexivity.
Defined.

Lemma cache_crosses_users_witness :
  let md5_hexdigest := λ s, "k" +:+ s in
  let cache : gmap string nat := ∅ in
  cache_get md5_hexdigest
    (cache_set md5_hexdigest cache ("bob" +:+ "::" +:+ "total sales") "alice" 7%nat)
    "total sales" ("alice" +:+ "::" +:+ "bob") = Some 7%nat.
Proof.
  intros md5_hexdigest cache.
  refine (cache_crosses_users md5_hexdigest cache "alice" "bob" "total sales" 7%nat
            _ _ _ _ _ _ _).
  - intros s. discriminate.
  - reflexivity.
  - reflexivity.
  - discriminate.
  - reflexivity.
  - reflexivity.
  - reflexivity.
Defined.

Lemma general_keyword_wins_witness :
  let mgr := initialize_models Script.env3 in
  classify_prompt_type Script.groq_chat Script.requests_post Script.gemini_generate
    Script.fix_text "Show me total sales for this month" mgr []
    = ("general_conversation", mgr, [], []).
Proof.
  intros mgr.
  refine (general_keyword_wins Script.groq_chat Script.requests_post
            Script.gemini_generate Script.fix_text
            "Show me total sales for this month" "hi" mgr [] _ _).
  - vm_compute. do 2 right. left.
  - vm_compute. reflexivity.
Defined.

Lemma triage_defaults_to_data_query_witness :
  let mgr := initialize_models Script.env2 in
  ∃ mgr' tr,
    classify_prompt_type Script.groq_chat Script.requests_post Script.gemini_generate
      Script.fix_text "orders placed in March" mgr []
      = ("data_query", mgr', [], tr) ∧
    length tr = 2%nat.
Proof.
  intros mgr.
  refine (triage_defaults_to_data_query Script.groq_chat Script.requests_post
            Script.gemini_generate Script.fix_text "orders placed in March" mgr [] []
            [Script.offline; Script.offline] _ _ _ _).
  - reflexivity.
  - apply initialize_models_well_formed.
  - vm_compute. reflexivity.
  - vm_compute. reflexivity.
Defined.
